(** * robot-rock: servo settling, the lean gesture and the startup ramp

    A shallow embedding of [src/state/settle-servos.js], [src/state/lean.js],
    [src/state/normalize-input.js] and the orchestrator [src/index.js], with
    the part of the earlier orchestrator that installs and removes the
    settle filter.

    JavaScript objects that are mutated in place (servos, state objects, the
    [servosActive] Set of the startup sequencer, the module variable
    [justLeaned]) live in an explicit [World]; functions thread it. The
    orchestrator is a machine that handles input samples, ticks and the timers
    that resume the startup sequencer, in any order. Numbers, the PID
    controller, the joystick conversion, the servo scaling and the gestures
    [move] and [stand] are interfaces; the numbers of the program are
    doubles, and what is proved of rounding holds of any numbers that round
    to nearest. *)

From Stdlib Require Import ZArith QArith Qabs Qround Lia Lqa PrimFloat.
From stdpp Require Import base decidable option list gmap functions.

Set Default Proof Using "Type".

(** ** Numbers and the external collaborators *)

(** JavaScript numbers with the three operators the sources apply to them:
    binary [+] and [-] in [settleServos], unary [-] in [lean]. *)
Class Arith := {
  num : Type;
  add : num → num → num;
  sub : num → num → num;
  neg : num → num
}.

(** The PID controller of a servo ([servo.pid]); [pid.step(error)] returns a
    delta and updates the controller's memory. *)
Class Controller `{Arith} := {
  PidState : Type;
  pid_step : PidState → num → num * PidState
}.

(** What the numbers stand for. A number is [finite] or not (an infinity, a
    NaN); a finite one stands for the rational [val]. [+] and [-] round: as
    long as the exact result is within [bound] in magnitude, the result is
    finite and no finite number is nearer to the exact result; the result of
    [-] is off by at most half of the exact difference. IEEE 754 doubles in
    round-to-nearest mode are such numbers, with [bound] the largest finite
    double; so are exact integers or rationals, where nothing rounds. *)
Class Rounding `{Arith} := {
  val : num → Q;
  finite : num → Prop;
  bound : Q;
  zero : num;
  zero_val : finite zero ∧ (val zero == 0)%Q;
  add_rounds : ∀ a b, finite a → finite b →
    (Qabs (val a + val b) <= bound)%Q →
    finite (add a b) ∧
    ∀ f, finite f →
      (Qabs (val (add a b) - (val a + val b)) <= Qabs (val f - (val a + val b)))%Q;
  sub_rounds : ∀ a b, finite a → finite b →
    (Qabs (val a - val b) <= bound)%Q →
    finite (sub a b) ∧
    (∀ f, finite f →
      (Qabs (val (sub a b) - (val a - val b)) <= Qabs (val f - (val a - val b)))%Q) ∧
    (Qabs (val (sub a b) - (val a - val b)) <= (1 # 2) * Qabs (val a - val b))%Q
}.

(** A JavaScript [Set] of servo indices, in insertion order. The values an
    iterator hands out are [Some i], or [None] for [undefined]. *)
Abbreviation IndexSet := (list (option Z)).

Section Model.
Context `{Ctl : Controller}.

(** ** Data model *)

Record Position := mkPosition {
  current : num;
  goal : num;
  neutral : num
}.

Record Servo := mkServo {
  index : Z;
  pid : PidState;
  position : Position
}.

(** Identity of a servo object, and of a state object. *)
Definition ref := nat.
Definition loc := nat.

(** The [{ elbow, shoulder }] pairs yielded by [legs.left] and [legs.right]. *)
Record Leg := mkLeg {
  elbow : ref;
  shoulder : ref
}.

Record Legs := mkLegs {
  left : list Leg;
  right : list Leg;
  legs_all : list ref
}.

(** The servo collection, given by what its queries yield, in order. *)
Record ServoCollection := mkCollection {
  all : list ref;
  odd : list ref;
  even : list ref;
  legs : Legs
}.

(** A predicate closure stored in [state.settleServoFilter]; it may read the
    [servosActive] Set it closes over. *)
Definition Predicate := IndexSet → Servo → bool.

Record State := mkState {
  servos : ServoCollection;
  leaned : bool;
  settleServoFilter : option Predicate
}.

(** One call of [pwm.setPwm(channel, on, off)]. *)
Record PwmWrite := mkPwmWrite {
  channel : Z;
  pulse_on : Z;
  pulse_off : num
}.

Definition Heap := ref → Servo.

Record World := mkWorld {
  heap : Heap;
  pwm : list PwmWrite;
  justLeaned : bool;
  states : loc → State;
  nextLoc : loc;
  servosActive : IndexSet
}.

Record Context (I : Type) := mkContext {
  input : I;
  state : loc;
  elapsed : num
}.
Global Arguments mkContext {I} _ _ _.
Global Arguments input {I} _.
Global Arguments state {I} _.
Global Arguments elapsed {I} _.

(** ** settle-servos.js *)

Definition set_current (v : num) (p : Position) : Position :=
  mkPosition v (goal p) (neutral p).

Definition set_goal (v : num) (p : Position) : Position :=
  mkPosition (current p) v (neutral p).

(** The body of the loop for one servo that is not skipped:
    [error = goal - current; current += pid.step(error)]. *)
Definition settleServo (servo : Servo) : Servo :=
  let error := sub (goal (position servo)) (current (position servo)) in
  let '(delta, pid') := pid_step (pid servo) error in
  mkServo (index servo) pid'
          (set_current (add (current (position servo)) delta) (position servo)).

(** [settleServoFilter && !settleServoFilter(servo)] *)
Definition skipped (flt : option (Servo → bool)) (servo : Servo) : bool :=
  match flt with
  | Some f => negb (f servo)
  | None => false
  end.

(** [for (const servo of servos.all()) { ... }] *)
Fixpoint settleLoop (flt : option (Servo → bool)) (rs : list ref)
    (h : Heap) (log : list PwmWrite) : Heap * list PwmWrite :=
  match rs with
  | [] => (h, log)
  | r :: rs' =>
      if skipped flt (h r) then settleLoop flt rs' h log
      else
        let servo' := settleServo (h r) in
        settleLoop flt rs' (<[r := servo']> h)
          (log ++ [mkPwmWrite (index servo') 0 (current (position servo'))])
  end.

(** The filter of a state object as the settler sees it in one pass. *)
Definition filterOf (w : World) (st : State) : option (Servo → bool) :=
  (λ p, p (servosActive w)) <$> settleServoFilter st.

Definition with_heap_pwm (w : World) (hl : Heap * list PwmWrite) : World :=
  mkWorld (fst hl) (snd hl) (justLeaned w) (states w) (nextLoc w) (servosActive w).

(** [assert]: a [null] or [undefined] argument throws, anything else is
    returned. *)
Inductive Outcome (A : Type) :=
  | Returned (a : A)
  | Thrown.
Global Arguments Returned {A} _.
Global Arguments Thrown {A}.

Definition assert {A} (x : option A) : Outcome A :=
  match x with
  | None => Thrown
  | Some v => Returned v
  end.

Definition Outcome_map {A B} (f : A → B) (o : Outcome A) : Outcome B :=
  match o with
  | Returned a => Returned (f a)
  | Thrown => Thrown
  end.

Definition settleServos {I} (context : Context I) (w : World) : Context I * World :=
  let st := states w (state context) in
  (context,
   with_heap_pwm w (settleLoop (filterOf w st) (all (servos st)) (heap w) (pwm w))).

Definition tick (context : Context unit) (w : World) : Outcome loc * World :=
  let '(r, w1) := settleServos context w in
  (Outcome_map state (assert (Some r)), w1).

(** ** normalize-input.js *)

(** The joystick conversion and the per-servo scaling of [util/index.js]. *)
Class Calibration := {
  RawJoystick : Type;
  vectorFromJoystick : RawJoystick → num * num;
  scaleAxisToServo : num → Servo → num
}.
Context `{Cal : Calibration}.

Record RawInput := mkRawInput {
  raw_left : RawJoystick;
  raw_right : RawJoystick;
  raw_buttons : list Z
}.

(** [{ ...joystick, ...vectorFromJoystick(joystick) }] *)
Record Joystick := mkJoystick {
  raw : RawJoystick;
  x : num;
  y : num
}.

Record Input := mkInput {
  axes_left : Joystick;
  axes_right : Joystick;
  buttonsPressed : gset Z
}.

Definition vectorizeJoystick (joystick : RawJoystick) : Joystick :=
  let v := vectorFromJoystick joystick in
  mkJoystick joystick (fst v) (snd v).

Definition normalizeInput (context : Context RawInput) : Context Input :=
  let i := input context in
  mkContext
    (mkInput (vectorizeJoystick (raw_left i)) (vectorizeJoystick (raw_right i))
             (list_to_set (raw_buttons i)))
    (state context) (elapsed context).

(** ** lean.js *)

(** [servo.position.goal = v] on the servo object [r]. *)
Definition write_goal (r : ref) (v : num) (h : Heap) : Heap :=
  <[r := mkServo (index (h r)) (pid (h r)) (set_goal v (position (h r)))]> h.

(** One of the two loops over [{ elbow, shoulder }] pairs; [ax] is the axis
    value passed for the elbow, [ay] the one passed for the shoulder. *)
Fixpoint leanSide (ax ay : num) (side : list Leg) (h : Heap) : Heap :=
  match side with
  | [] => h
  | l :: side' =>
      let h1 := write_goal (elbow l) (scaleAxisToServo ax (h (elbow l))) h in
      let h2 := write_goal (shoulder l) (scaleAxisToServo ay (h1 (shoulder l))) h1 in
      leanSide ax ay side' h2
  end.

(** [for (const servo of legs.all()) servo.position.goal = servo.position.neutral] *)
Fixpoint resetLegs (rs : list ref) (h : Heap) : Heap :=
  match rs with
  | [] => h
  | r :: rs' => resetLegs rs' (write_goal r (neutral (position (h r))) h)
  end.

Definition shouldLean (context : Context Input) : bool :=
  bool_decide (4%Z ∈ buttonsPressed (input context)).

Definition with_heap_flag (w : World) (h : Heap) (flag : bool) : World :=
  mkWorld h (pwm w) flag (states w) (nextLoc w) (servosActive w).

(** [{ ...state, leaned }] is a new object: it is stored at a fresh location. *)
Definition alloc_state (st : State) (w : World) : loc * World :=
  (nextLoc w,
   mkWorld (heap w) (pwm w) (justLeaned w) (<[nextLoc w := st]> (states w))
           (S (nextLoc w)) (servosActive w)).

(** The mutations of [lean], before the new context is built. *)
Definition leanEffect (context : Context Input) (w : World) : World :=
  let xr := x (axes_right (input context)) in
  let yr := y (axes_right (input context)) in
  let lg := legs (servos (states w (state context))) in
  if shouldLean context then
    with_heap_flag w
      (leanSide (neg xr) (neg yr) (right lg) (leanSide (neg xr) yr (left lg) (heap w)))
      true
  else if justLeaned w then
    with_heap_flag w (resetLegs (legs_all lg) (heap w)) false
  else w.

Definition lean (context : Context Input) (w : World) : Context Input * World :=
  let st := states w (state context) in
  let w1 := leanEffect context w in
  let '(l, w2) :=
    alloc_state (mkState (servos st) (shouldLean context) (settleServoFilter st)) w1 in
  (mkContext (input context) l (elapsed context), w2).

(** ** index.js: the pipeline *)

(** What code outside [lean.js] and [setStartupSettlerFilter] can reach from
    a context: the servo objects, the hardware, the state objects. The module
    variable [justLeaned] and the local [servosActive] are out of its scope. *)
Record Reach := mkReach {
  r_heap : Heap;
  r_pwm : list PwmWrite;
  r_states : loc → State;
  r_nextLoc : loc
}.

Definition reach (w : World) : Reach :=
  mkReach (heap w) (pwm w) (states w) (nextLoc w).

Definition with_reach (w : World) (rc : Reach) : World :=
  mkWorld (r_heap rc) (r_pwm rc) (justLeaned w) (r_states rc) (r_nextLoc rc)
          (servosActive w).

(** The two gesture transforms that follow [lean]; each returns a context, or
    [None] for a [null]/[undefined] result, and may mutate what it reaches. *)
Class Gestures := {
  move : Context Input → Reach → option (Context Input) * Reach;
  stand : Context Input → Reach → option (Context Input) * Reach
}.
Context `{Ges : Gestures}.

Definition call (g : Context Input → Reach → option (Context Input) * Reach)
    (context : Context Input) (w : World) : option (Context Input) * World :=
  let res := g context (reach w) in
  (fst res, with_reach w (snd res)).

Definition step (context : Context RawInput) (w : World) : Outcome loc * World :=
  match assert (Some (normalizeInput context)) with
  | Thrown => (Thrown, w)
  | Returned c1 =>
      let '(r2, w2) := lean c1 w in
      match assert (Some r2) with
      | Thrown => (Thrown, w2)
      | Returned c2 =>
          let '(r3, w3) := call move c2 w2 in
          match assert r3 with
          | Thrown => (Thrown, w3)
          | Returned c3 =>
              let '(r4, w4) := call stand c3 w3 in
              match assert r4 with
              | Thrown => (Thrown, w4)
              | Returned c4 => (Returned (state c4), w4)
              end
          end
      end
  end.

Definition tickContext (st : loc) (dt : num) : Context unit := mkContext tt st dt.

(** ** index.js: JavaScript Sets of servo indices *)

Definition set_has (v : option Z) (s : IndexSet) : bool := bool_decide (v ∈ s).

Definition set_add (v : option Z) (s : IndexSet) : IndexSet :=
  if set_has v s then s else s ++ [v].

Definition set_delete (v : option Z) (s : IndexSet) : IndexSet :=
  filter (λ u, u ≠ v) s.

(** [new Set(iterable)] *)
Definition set_of (l : list (option Z)) : IndexSet :=
  fold_left (λ s v, set_add v s) l [].

(** [[ ...servos ].map(s => s.index)] *)
Definition indices (h : Heap) (rs : list ref) : list (option Z) :=
  map (λ r, Some (index (h r))) rs.

(** ** index.js: the startup ramp *)

(** [({ index }) => servosActive.has(index)] *)
Definition startupFilter : Predicate :=
  λ active servo, set_has (Some (index servo)) active.

(** [Math.floor(Math.random() * servosRemaining.size)], for the draw [r]. *)
Definition randomIndex (r : Q) (size : nat) : Z :=
  Qfloor (r * inject_Z (Z.of_nat size)).

(** [servosIterator.next().value]: the next value, [undefined] once the
    iterator is exhausted. *)
Definition next (it : list (option Z)) : option Z * list (option Z) :=
  match it with
  | [] => (None, [])
  | v :: it' => (v, it')
  end.

(** [for (let i = 1; i < index; i++) servoIndex = servosIterator.next().value]
    where [n] counts the iterations that are left. *)
Fixpoint advance (n : nat) (servoIndex : option Z) (it : list (option Z)) : option Z :=
  match n with
  | O => servoIndex
  | S n' => let '(v, it') := next it in advance n' v it'
  end.

(** The servo index one iteration of the [while] loop activates. *)
Definition pickServo (r : Q) (servosRemaining : IndexSet) : option Z :=
  let index := randomIndex r (length servosRemaining) in
  let '(servoIndex, servosIterator) := next servosRemaining in
  advance (Z.to_nat (index - 1)) servoIndex servosIterator.

(** Where [setStartupSettlerFilter] is suspended. *)
Inductive Ramp :=
  | RampIdle
  | RampWhile (servosRemaining : IndexSet) (later : list IndexSet)
  | RampPause (later : list IndexSet)
  | RampDone.

(** The orchestrator: the world, the [state] variable of [main], the [state]
    parameter of [setStartupSettlerFilter], and the sequencer's position. *)
Record Machine := mkMachine {
  world : World;
  mainState : loc;
  rampState : loc;
  ramp : Ramp
}.

Definition with_active (w : World) (a : IndexSet) : World :=
  mkWorld (heap w) (pwm w) (justLeaned w) (states w) (nextLoc w) a.

Definition with_filter (w : World) (l : loc) (f : option Predicate) : World :=
  mkWorld (heap w) (pwm w) (justLeaned w)
    (<[l := mkState (servos (states w l)) (leaned (states w l)) f]> (states w))
    (nextLoc w) (servosActive w).

(** From the test of [while (servosRemaining.size)] to the next [await]. *)
Definition rampWhile (r : Q) (servosRemaining : IndexSet) (later : list IndexSet)
    (m : Machine) : Machine :=
  match servosRemaining with
  | [] => mkMachine (world m) (mainState m) (rampState m) (RampPause later)
  | _ :: _ =>
      let servoIndex := pickServo r servosRemaining in
      mkMachine
        (with_active (world m) (set_add servoIndex (servosActive (world m))))
        (mainState m) (rampState m)
        (RampWhile (set_delete servoIndex servosRemaining) later)
  end.

(** The sequencer is resumed by a timer; [r] is what [Math.random()] returns
    if this slice calls it. *)
Definition rampResume (r : Q) (m : Machine) : Machine :=
  match ramp m with
  | RampWhile servosRemaining later => rampWhile r servosRemaining later m
  | RampPause (servosRemaining :: later) => rampWhile r servosRemaining later m
  | RampPause [] =>
      mkMachine (with_filter (world m) (rampState m) None)
        (mainState m) (rampState m) RampDone
  | RampIdle | RampDone => m
  end.

(** The call [setStartupSettlerFilter(state)], up to its first [await]. *)
Definition setStartupSettlerFilter (r : Q) (st : loc) (m : Machine) : Machine :=
  let w := world m in
  let oddServos := set_of (indices (heap w) (odd (servos (states w st)))) in
  let evenServos := set_of (indices (heap w) (even (servos (states w st)))) in
  let w1 := with_filter (with_active w []) st (Some startupFilter) in
  rampWhile r evenServos [oddServos] (mkMachine w1 (mainState m) st RampIdle).

(** [main] after [init()]: the state object [st] in the world [w]. *)
Definition main (r : Q) (w : World) (st : loc) : Machine :=
  setStartupSettlerFilter r st (mkMachine w st st RampIdle).

Inductive Event :=
  | EvInput (i : RawInput) (timeSinceLastInput : num)
  | EvTick (timeSinceLastTick : num)
  | EvRamp (r : Q).

(** [state = step(...)] and [state = tick(...)]: the assignment happens only
    when the call returns. *)
Definition assign (m : Machine) (res : Outcome loc * World) : Machine :=
  match fst res with
  | Returned l => mkMachine (snd res) l (rampState m) (ramp m)
  | Thrown => mkMachine (snd res) (mainState m) (rampState m) (ramp m)
  end.

Definition handle (ev : Event) (m : Machine) : Machine :=
  match ev with
  | EvInput i dt => assign m (step (mkContext i (mainState m) dt) (world m))
  | EvTick dt => assign m (tick (tickContext (mainState m) dt) (world m))
  | EvRamp r => rampResume r m
  end.

Definition run (evs : list Event) (m : Machine) : Machine :=
  fold_left (λ m ev, handle ev m) evs m.

(** The filter the settler applies at tick time in machine [m]. *)
Definition liveFilter (m : Machine) : option (Servo → bool) :=
  filterOf (world m) (states (world m) (mainState m)).

(** ** Vocabulary of the statements *)

(** What a settler pass never changes on a servo object. *)
Definition same_targets (s1 s2 : Servo) : Prop :=
  index s1 = index s2 ∧
  goal (position s1) = goal (position s2) ∧
  neutral (position s1) = neutral (position s2).

(** What [lean] never changes on a servo object. *)
Definition same_but_goal (s1 s2 : Servo) : Prop :=
  index s1 = index s2 ∧
  pid s1 = pid s2 ∧
  current (position s1) = current (position s2) ∧
  neutral (position s1) = neutral (position s2).

(** The servo objects of one side's pairs. *)
Definition legRefs (side : list Leg) : list ref :=
  flat_map (λ l, [elbow l; shoulder l]) side.

(** The [else if (justLeaned)] branch of [lean] runs. *)
Definition lean_resets (context : Context Input) (w : World) : bool :=
  negb (shouldLean context) && justLeaned w.

(** The worlds in which successive calls of [lean] start. *)
Fixpoint leanWorlds (cs : list (Context Input)) (w : World) : list World :=
  match cs with
  | [] => []
  | c :: cs' => w :: leanWorlds cs' (snd (lean c w))
  end.

(** The indices the sequencer has still to activate. *)
Definition pending (rp : Ramp) : list (option Z) :=
  match rp with
  | RampWhile servosRemaining later => servosRemaining ++ concat later
  | RampPause later => concat later
  | RampIdle | RampDone => []
  end.

(** The number of timers the sequencer still needs: one per remaining index
    and one for the pause after each set. *)
Definition rampMeasure (rp : Ramp) : nat :=
  let todo (later : list IndexSet) := foldr (λ s n, length s + 1 + n) 0 later in
  match rp with
  | RampWhile servosRemaining later => length servosRemaining + 2 + todo later
  | RampPause later => 1 + todo later
  | RampIdle | RampDone => 0
  end.

(** [Math.random()] returns a number in [[0, 1)]. *)
Definition validDraw (r : Q) : Prop := (0 <= r)%Q ∧ (r < 1)%Q.

(** The sequencer has started on the indices [L]: those not yet active are
    pending, none is both or twice, and once it is done the state object it
    was given has no filter. *)
Definition rampInv (L : list (option Z)) (m : Machine) : Prop :=
  ramp m ≠ RampIdle ∧
  NoDup (servosActive (world m) ++ pending (ramp m)) ∧
  servosActive (world m) ++ pending (ramp m) ≡ₚ L ∧
  (ramp m = RampDone →
   settleServoFilter (states (world m) (rampState m)) = None).

(** [n] successive settler passes. *)
Fixpoint settlePasses {I} (n : nat) (context : Context I) (w : World) : World :=
  match n with
  | O => w
  | S n' => snd (settleServos context (settlePasses n' context w))
  end.

End Model.

(** ** Concrete rigs, used to evaluate the model *)

Module Rig.

(** Integer pulse widths. *)
Definition ZArithmetic : Arith :=
  {| num := Z; add := Z.add; sub := Z.sub; neg := Z.opp |}.

(** A controller that covers half of the error and remembers the last one. *)
Definition halfController : @Controller ZArithmetic :=
  @Build_Controller ZArithmetic Z (λ (_ : Z) (e : Z), ((e / 2)%Z, e)).

Definition offsetCalibration : @Calibration ZArithmetic halfController :=
  @Build_Calibration ZArithmetic halfController (Z * Z)%type
    (λ j : Z * Z, j)
    (λ (a : Z) servo, (neutral (position servo) + a)%Z).

(** Gestures that pass their context on untouched. *)
Definition passGestures : @Gestures ZArithmetic halfController offsetCalibration :=
  @Build_Gestures ZArithmetic halfController offsetCalibration
    (λ c rc, (Some c, rc)) (λ c rc, (Some c, rc)).


(** Four servos, servo object [r] on channel [r]; shoulders are even. *)
Definition rigHeap : @Heap ZArithmetic halfController :=
  λ r, @mkServo ZArithmetic halfController (Z.of_nat r) 0%Z
         (@mkPosition ZArithmetic 300%Z 340%Z 300%Z).

Definition rigServos : ServoCollection :=
  mkCollection [0; 1; 2; 3] [1; 3] [0; 2]
    (mkLegs [mkLeg 1 0] [mkLeg 3 2] [0; 1; 2; 3]).

Definition rigState (flt : option (@Predicate ZArithmetic halfController))
    : @State ZArithmetic halfController :=
  @mkState ZArithmetic halfController rigServos false flt.

Definition rigWorld (flt : option (@Predicate ZArithmetic halfController))
    : @World ZArithmetic halfController :=
  @mkWorld ZArithmetic halfController rigHeap [] false (λ _, rigState flt) 1 [].

(** Admit the servos on even channels only. *)
Definition evenOnly : @Predicate ZArithmetic halfController :=
  λ _ servo, Z.even (index servo).

Definition rawInput (buttons : list Z) (rx ry : Z)
    : @RawInput ZArithmetic halfController offsetCalibration :=
  @mkRawInput ZArithmetic halfController offsetCalibration (0%Z, 0%Z) (rx, ry) buttons.

(** A normalized context for [lean]: buttons held and right-stick axes. *)
Definition leanContext (buttons : list Z) (rx ry : Z)
    : Context (@Input ZArithmetic halfController offsetCalibration) :=
  normalizeInput (@mkContext ZArithmetic _ (rawInput buttons rx ry) 0 0%Z).

(** Button 4 held for two samples, then released for two. *)
Definition pressRelease
    : list (Context (@Input ZArithmetic halfController offsetCalibration)) :=
  [leanContext [4%Z] 10 20; leanContext [4%Z] 10 20;
   leanContext [] 10 20; leanContext [] 10 20].

(** [main] up to the first [await] of the sequencer, every draw being 0. *)
Definition rigBoot : @Machine ZArithmetic halfController :=
  main 0 (rigWorld None) 0.

(** The timers that resume the sequencer until it has finished. *)
Definition rampTimers : list (@Event ZArithmetic halfController offsetCalibration) :=
  replicate 6 (EvRamp 0).

(** The same timers, with one input sample (no button held) handled after
    the first of them. *)
Definition rampWithInput : list (@Event ZArithmetic halfController offsetCalibration) :=
  EvRamp 0
  :: @EvInput ZArithmetic halfController offsetCalibration (rawInput [] 0 0) 0%Z
  :: replicate 5 (EvRamp 0).

(** The context of a tick on the rig. *)
Definition tickCtx : Context unit := @tickContext ZArithmetic 0 0%Z.


Definition runRig
    : list (@Event ZArithmetic halfController offsetCalibration) →
      @Machine ZArithmetic halfController → @Machine ZArithmetic halfController :=
  @run ZArithmetic halfController offsetCalibration passGestures.

End Rig.

(** ** The earlier orchestrator *)

Module Legacy.
Section Legacy.
Context `{Ctl : Controller}.

(** [({ index }) => index % 2 === 0] *)
Definition evenFilter : Predicate :=
  λ _ servo, (Z.rem (index servo) 2 =? 0)%Z.

(** [main] after [init()]: [state.settleServoFilter = ...]. *)
Definition legacyBoot (w : World) (st : loc) : Machine :=
  mkMachine (with_filter w st (Some evenFilter)) st st RampIdle.

(** [setTimeout(() => { delete state.settleServoFilter; }, 500)], where
    [state] is the variable of [main]. *)
Definition legacyTimeout (m : Machine) : Machine :=
  mkMachine (with_filter (world m) (mainState m) None)
    (mainState m) (rampState m) (ramp m).

End Legacy.
End Legacy.

(** ** Vocabulary of the statements about convergence *)

Section RoundedVocabulary.
Context `{A : Arith} {Rd : @Rounding A} {Ctl : @Controller A}.

(** [|goal - current|] of a servo, between the numbers the two stand for. *)
Definition gap (servo : Servo) : Q :=
  Qabs (val (goal (position servo)) - val (current (position servo))).

(** A purely proportional controller with gain [k]: [step(error)] returns
    [k * error], rounded like the other operations. *)
Definition proportionalStep (k : Q) : Prop :=
  ∀ (st : PidState) (e : num),
    finite e → (Qabs (k * val e) <= bound)%Q →
    finite (fst (pid_step st e)) ∧
    ∀ f, finite f →
      (Qabs (val (fst (pid_step st e)) - k * val e) <= Qabs (val f - k * val e))%Q.

(** A servo with finite goal and current, the goal within [M] and the current
    within [2 * M] of the goal. *)
Definition inRange (M : Q) (servo : Servo) : Prop :=
  finite (goal (position servo)) ∧ finite (current (position servo)) ∧
  (Qabs (val (goal (position servo))) <= M)%Q ∧ (gap servo <= 2 * M)%Q.

End RoundedVocabulary.

(** Integer pulse widths as rounded numbers: [+] and [-] are exact, and every
    integer is finite; [bound] is the 12-bit range of the PWM driver. *)
Definition integerRounding : @Rounding Rig.ZArithmetic.
Proof.
  refine (@Build_Rounding Rig.ZArithmetic inject_Z (λ _, True) 4095 0%Z _ _ _).
  - split; [exact I|reflexivity].
  - intros a b _ _ _. split; [exact I|]. intros f _.
    cbn [add Rig.ZArithmetic].
    assert (inject_Z (a + b) - (inject_Z a + inject_Z b) == 0)%Q as Hz.
    { rewrite inject_Z_plus. ring. }
    rewrite Hz. apply Qabs_nonneg.
  - intros a b _ _ _. cbn [sub Rig.ZArithmetic].
    assert (inject_Z (a - b) - (inject_Z a - inject_Z b) == 0)%Q as Hz.
    { unfold Z.sub. rewrite inject_Z_plus, inject_Z_opp. ring. }
    split; [exact I|]. split.
    + intros f _. rewrite Hz. apply Qabs_nonneg.
    + rewrite Hz. apply Qmult_le_0_compat; [discriminate|apply Qabs_nonneg].
Defined.

(** ** The numbers of the program *)

Module Doubles.

(** JavaScript numbers: IEEE 754 binary64, [+], [-] and unary [-]. *)
Definition DoubleArithmetic : Arith :=
  {| num := float; add := PrimFloat.add; sub := PrimFloat.sub;
     neg := PrimFloat.opp |}.

(** A memoryless proportional controller: [step(error)] is [k * error]. *)
Definition gainController (k : float) : @Controller DoubleArithmetic :=
  @Build_Controller DoubleArithmetic unit
    (λ st (e : float), (PrimFloat.mul k e, st)).

(** A servo on channel 0 with the given current and goal. *)
Definition servoAt (k current goal : float)
    : @Servo DoubleArithmetic (gainController k) :=
  @mkServo DoubleArithmetic (gainController k) 0 tt
    (@mkPosition DoubleArithmetic current goal 0%float).

End Doubles.

(** ** Vocabulary of the statements about the remaining code *)

(** The active list, cut in consecutive stretches, one per set and in the
    order of the sets, each stretch holding the indices of its set. *)
Inductive staged : list IndexSet → list (option Z) → Prop :=
  | staged_nil : staged [] []
  | staged_cons s ss a b : a ≡ₚ s → staged ss b → staged (s :: ss) (a ++ b).

Section MoreVocabulary.
Context `{Cal : Calibration}.


(** Button 4 occurs in the [buttonsPressed] of a raw input sample. *)
Definition leanHeld (i : RawInput) : bool :=
  bool_decide (4%Z ∈ raw_buttons i).

(** The event is a tick or a sequencer timer. *)
Definition noInput (ev : Event) : Prop :=
  match ev with
  | EvInput _ _ => False
  | EvTick _ | EvRamp _ => True
  end.

(** The draws carried by the sequencer timers of an event list. *)
Definition rampDraws (evs : list Event) : list Q :=
  flat_map (λ ev, match ev with EvRamp r => [r] | _ => [] end) evs.

(** The level of the lean button in the last input sample of an event list;
    [flag] when it has none. *)
Definition lastLevel (evs : list Event) (flag : bool) : bool :=
  fold_left (λ b ev, match ev with EvInput i _ => leanHeld i | _ => b end)
            evs flag.

(** How far the sequencer has got through the sets [sets]: the sets it has
    finished lie staged in the active list, followed by what it has activated
    of the set it is working on. *)
Definition stagedInv (sets : list IndexSet) (m : Machine) : Prop :=
  match ramp m with
  | RampIdle => False
  | RampWhile servosRemaining later =>
      ∃ finished cur a1 a2,
        sets = finished ++ cur :: later ∧
        servosActive (world m) = a1 ++ a2 ∧
        staged finished a1 ∧ a2 ++ servosRemaining ≡ₚ cur
  | RampPause later =>
      ∃ finished, sets = finished ++ later ∧
                  staged finished (servosActive (world m))
  | RampDone => staged sets (servosActive (world m))
  end.

(** The sequencer was started on the state object [st], which [main] still
    holds, and that object carries the startup filter until the sequencer is
    done. *)
Definition filterInv (st : loc) (m : Machine) : Prop :=
  mainState m = st ∧ rampState m = st ∧ ramp m ≠ RampIdle ∧
  settleServoFilter (states (world m) st) =
    match ramp m with
    | RampDone => None
    | _ => Some startupFilter
    end.

End MoreVocabulary.

Module RigMore.
Import Rig.

(** The startup filter on the rig, nothing active yet. *)
Definition idleWorld : @World ZArithmetic halfController :=
  rigWorld (Some startupFilter).

(** Two input samples that differ in the left stick, in the other buttons,
    in the order and repetition of the buttons and in the elapsed time. *)
Definition sampleA : Context (@RawInput ZArithmetic halfController offsetCalibration) :=
  @mkContext ZArithmetic _
    (@mkRawInput ZArithmetic halfController offsetCalibration
       (0%Z, 0%Z) (10%Z, 20%Z) [4%Z]) 0 0%Z.

Definition sampleB : Context (@RawInput ZArithmetic halfController offsetCalibration) :=
  @mkContext ZArithmetic _
    (@mkRawInput ZArithmetic halfController offsetCalibration
       (7%Z, (-3)%Z) (10%Z, 20%Z) [1%Z; 4%Z; 4%Z; 9%Z]) 0 16%Z.

(** The sequencer's timers with a tick after each of them. *)
Definition rampWithTicks : list (@Event ZArithmetic halfController offsetCalibration) :=
  concat (replicate 6 [EvRamp (1 # 3); @EvTick ZArithmetic halfController offsetCalibration 16%Z]).

(** A machine on the rig before the sequencer has started. *)
Definition freshMachine : @Machine ZArithmetic halfController :=
  mkMachine (rigWorld None) 0 0 RampIdle.

(** [main] on the rig with first draw 1/3. *)
Definition thirdMain : @Machine ZArithmetic halfController :=
  main (1 # 3) (rigWorld None) 0.

End RigMore.

(** * Properties *)

Section SettlerProofs.
Context `{Ctl : Controller}.

Lemma heap_insert_eq (h : Heap) r servo : <[r := servo]> h r = servo.
Proof. apply fn_lookup_insert. Qed.

Lemma heap_insert_ne (h : Heap) r r' servo : r ≠ r' → <[r := servo]> h r' = h r'.
Proof. apply fn_lookup_insert_ne. Qed.

Lemma settleLoop_frame flt rs (h : Heap) log r :
  r ∉ rs → fst (settleLoop flt rs h log) r = h r.
Proof.
  revert h log. induction rs as [|r0 rs IH]; intros h log Hr; [done|].
  apply not_elem_of_cons in Hr as [Hne Hr]. simpl.
  destruct (skipped flt (h r0)); [by apply IH|].
  rewrite IH by done. by apply heap_insert_ne.
Qed.

Lemma settleLoop_log flt rs (h : Heap) log :
  snd (settleLoop flt rs h log) = log ++ snd (settleLoop flt rs h []).
Proof.
  revert h log. induction rs as [|r0 rs IH]; intros h log; simpl.
  - by rewrite app_nil_r.
  - destruct (skipped flt (h r0)); [apply IH|].
    rewrite IH. rewrite (IH _ [_]). by rewrite app_assoc.
Qed.

(** The writes one pass owes to the servos [rs], read off the heap [h]. *)
Lemma writes_ext flt rs (h1 h : Heap) :
  (∀ r, r ∈ rs → h1 r = h r) →
  map (λ r, mkPwmWrite (index (h1 r)) 0 (current (position (settleServo (h1 r)))))
      (filter (λ r, skipped flt (h1 r) = false) rs) =
  map (λ r, mkPwmWrite (index (h r)) 0 (current (position (settleServo (h r)))))
      (filter (λ r, skipped flt (h r) = false) rs).
Proof.
  induction rs as [|r1 rs IH]; intros Hsame; [done|].
  assert (h1 r1 = h r1) as Hr1 by (apply Hsame; left).
  specialize (IH (λ r Hr, Hsame r (list_elem_of_further _ _ _ Hr))).
  destruct (skipped flt (h r1)) eqn:Hs1.
  - rewrite !filter_cons_False by (rewrite ?Hr1, Hs1; done). done.
  - rewrite !filter_cons_True by (rewrite ?Hr1, Hs1; done).
    simpl. by rewrite Hr1, IH.
Qed.

(** With every servo object listed once, the loop leaves each admitted servo
    settled once, and logs the writes in list order. *)
Lemma settleLoop_spec flt rs (h : Heap) log :
  NoDup rs →
  (∀ r, r ∈ rs → skipped flt (h r) = false →
        fst (settleLoop flt rs h log) r = settleServo (h r)) ∧
  snd (settleLoop flt rs h log) =
    log ++ map (λ r, mkPwmWrite (index (h r)) 0
                       (current (position (settleServo (h r)))))
               (filter (λ r, skipped flt (h r) = false) rs).
Proof.
  revert h log. induction rs as [|r0 rs IH]; intros h log Hnd.
  { split; [intros r Hr; by apply elem_of_nil in Hr | by rewrite app_nil_r]. }
  apply list.NoDup_cons in Hnd as [Hr0 Hnd]. simpl.
  destruct (skipped flt (h r0)) eqn:Hsk.
  - destruct (IH h log Hnd) as [IH1 IH2]. split.
    + intros r Hr Hadm. apply elem_of_cons in Hr as [->|Hr]; [congruence|].
      by apply IH1.
    + rewrite IH2. rewrite filter_cons_False; [done|]. by rewrite Hsk.
  - set (h1 := <[r0 := settleServo (h r0)]> h).
    assert (Hsame : ∀ r, r ∈ rs → h1 r = h r).
    { intros r Hr. apply heap_insert_ne. intros ->. done. }
    destruct (IH h1 (log ++ [mkPwmWrite (index (settleServo (h r0))) 0
                (current (position (settleServo (h r0))))]) Hnd) as [IH1 IH2].
    split.
    + intros r Hr Hadm. apply elem_of_cons in Hr as [->|Hr].
      * rewrite settleLoop_frame by done. apply heap_insert_eq.
      * rewrite IH1; [by rewrite Hsame|done|by rewrite Hsame].
    + rewrite IH2. rewrite filter_cons_True by done.
      rewrite <- app_assoc. simpl. f_equal. f_equal.
      * f_equal. unfold settleServo. by destruct (pid_step _ _).
      * apply writes_ext. done.
Qed.

Lemma settleServo_index servo : index (settleServo servo) = index servo.
Proof. unfold settleServo. by destruct (pid_step _ _). Qed.

Lemma settleServo_goal servo :
  goal (position (settleServo servo)) = goal (position servo).
Proof. unfold settleServo. by destruct (pid_step _ _). Qed.

Lemma settleServo_neutral servo :
  neutral (position (settleServo servo)) = neutral (position servo).
Proof. unfold settleServo. by destruct (pid_step _ _). Qed.

Lemma settleServo_current servo :
  current (position (settleServo servo)) =
  add (current (position servo))
      (fst (pid_step (pid servo)
              (sub (goal (position servo)) (current (position servo))))).
Proof. unfold settleServo. by destruct (pid_step _ _). Qed.

Lemma settleServo_pid servo :
  pid (settleServo servo) =
  snd (pid_step (pid servo)
         (sub (goal (position servo)) (current (position servo)))).
Proof. unfold settleServo. by destruct (pid_step _ _). Qed.

Lemma settleLoop_targets flt rs (h : Heap) log r :
  same_targets (fst (settleLoop flt rs h log) r) (h r).
Proof.
  revert h log. induction rs as [|r0 rs IH]; intros h log; cbn [settleLoop]; [done|].
  destruct (skipped flt (h r0)); [apply IH|].
  destruct (IH (<[r0 := settleServo (h r0)]> h)
               (log ++ [mkPwmWrite (index (settleServo (h r0))) 0
                          (current (position (settleServo (h r0))))]))
    as (Hi & Hg & Hn).
  unfold same_targets. rewrite Hi, Hg, Hn.
  destruct (decide (r0 = r)) as [->|Hne].
  - rewrite heap_insert_eq.
    by rewrite settleServo_index, settleServo_goal, settleServo_neutral.
  - by rewrite heap_insert_ne.
Qed.

(** A servo the filter rejects is not touched, whatever the list holds. *)
Lemma settleLoop_rejected flt rs (h : Heap) log r :
  skipped flt (h r) = true → fst (settleLoop flt rs h log) r = h r.
Proof.
  revert h log. induction rs as [|r0 rs IH]; intros h log Hrej; cbn [settleLoop]; [done|].
  destruct (skipped flt (h r0)) eqn:Hsk; [by apply IH|].
  assert (r0 ≠ r) as Hne by (intros ->; congruence).
  rewrite IH; rewrite heap_insert_ne; done.
Qed.

(** No write of the pass goes to the channel of a rejected servo, when no
    other listed servo shares that channel. *)
Lemma settleLoop_channels flt rs (h : Heap) r :
  skipped flt (h r) = true →
  (∀ r', r' ∈ rs → index (h r') = index (h r) → r' = r) →
  ∀ wr, wr ∈ snd (settleLoop flt rs h []) → channel wr ≠ index (h r).
Proof.
  revert h. induction rs as [|r0 rs IH]; intros h Hrej Huniq wr Hwr; cbn [settleLoop] in Hwr.
  { by apply elem_of_nil in Hwr. }
  destruct (skipped flt (h r0)) eqn:Hsk.
  - apply (IH h); [done| |done]. intros r' Hr'. apply Huniq. by right.
  - assert (r0 ≠ r) as Hne by (intros ->; congruence).
    rewrite settleLoop_log in Hwr. apply elem_of_app in Hwr as [Hwr|Hwr].
    + apply list_elem_of_singleton in Hwr as ->. simpl.
      rewrite settleServo_index. intros Heq. apply Hne, Huniq; [left|done].
    + set (h1 := <[r0 := settleServo (h r0)]> h) in *.
      assert (Hidx : ∀ r', index (h1 r') = index (h r')).
      { intros r'. unfold h1. destruct (decide (r0 = r')) as [->|Hn].
        - by rewrite heap_insert_eq, settleServo_index.
        - by rewrite heap_insert_ne. }
      assert (h1 r = h r) as Hr by (by apply heap_insert_ne).
      rewrite <- Hr. apply (IH h1); [by rewrite Hr| |done].
      intros r' Hr'. rewrite !Hidx. apply Huniq. by right.
Qed.

Lemma skipped_filterOf (w : World) (st : State) servo :
  skipped (filterOf w st) servo =
  negb match settleServoFilter st with
       | Some p => p (servosActive w) servo
       | None => true
       end.
Proof. unfold filterOf. by destruct (settleServoFilter st). Qed.

(** C1. One settler pass, for a collection whose [all()] yields every servo
    object once. A servo is admitted when [settleServoFilter] is set and
    returns true for it, or when no filter is set. Each admitted servo has
    [position.current] advanced by exactly
    [pid.step(position.goal - position.current)], its controller stepped
    once, and the hardware receives, in the order of [all()], one write per
    admitted servo carrying that servo's index and its updated current. *)
Theorem settleServos_contract {I} (context : Context I) (w : World) :
  let st := states w (state context) in
  let w' := snd (settleServos context w) in
  let admitted (servo : Servo) : bool :=
    match settleServoFilter st with
    | Some settleServoFilter => settleServoFilter (servosActive w) servo
    | None => true
    end in
  NoDup (all (servos st)) →
  (∀ r, r ∈ all (servos st) → admitted (heap w r) = true →
     let servo := heap w r in
     let error := sub (goal (position servo)) (current (position servo)) in
     current (position (heap w' r)) =
       add (current (position servo)) (fst (pid_step (pid servo) error)) ∧
     pid (heap w' r) = snd (pid_step (pid servo) error)) ∧
  pwm w' =
    pwm w ++ map (λ r, mkPwmWrite (index (heap w r)) 0
                         (current (position (heap w' r))))
                 (filter (λ r, admitted (heap w r) = true) (all (servos st))).
Proof.
  intros st w' admitted Hnd.
  assert (Hadm : ∀ servo, skipped (filterOf w st) servo = false ↔
                          admitted servo = true).
  { intros servo. rewrite skipped_filterOf. fold (admitted servo).
    by destruct (admitted servo). }
  destruct (settleLoop_spec (filterOf w st) (all (servos st)) (heap w) (pwm w) Hnd)
    as [H1 H2].
  split.
  - intros r Hr Ha servo error. unfold w', settleServos. simpl.
    fold st. rewrite (H1 r Hr (proj2 (Hadm _) Ha)).
    by rewrite settleServo_current, settleServo_pid.
  - unfold w', settleServos. simpl. fold st. rewrite H2. f_equal.
    rewrite (list_filter_iff _ (λ r, admitted (heap w r) = true))
      by (intros r; apply Hadm).
    apply map_ext_in. intros r Hr. apply list_elem_of_In in Hr.
    apply list_elem_of_filter in Hr as [Ha Hr].
    by rewrite (H1 r Hr (proj2 (Hadm _) Ha)).
Qed.

(** C4. In a pass with [settleServoFilter] set, a servo for which the filter
    returns false keeps its whole record -- [position.current] and the
    controller's memory included, so [pid.step] was not called on it -- and,
    no other servo of the collection sharing its index, none of the writes of
    the pass goes to its channel. *)
Theorem settleServos_filter_exclusive {I} (context : Context I) (w : World)
    (p : Predicate) (r : ref) :
  let st := states w (state context) in
  let w' := snd (settleServos context w) in
  settleServoFilter st = Some p →
  p (servosActive w) (heap w r) = false →
  (∀ r', r' ∈ all (servos st) → index (heap w r') = index (heap w r) → r' = r) →
  heap w' r = heap w r ∧
  ∃ writes, pwm w' = pwm w ++ writes ∧
            ∀ wr, wr ∈ writes → channel wr ≠ index (heap w r).
Proof.
  intros st w' Hflt Hrej Huniq.
  assert (skipped (filterOf w st) (heap w r) = true) as Hsk.
  { unfold filterOf. rewrite Hflt. simpl. by rewrite Hrej. }
  unfold w', settleServos. simpl. fold st. split.
  - by apply settleLoop_rejected.
  - eexists. split; [apply settleLoop_log|]. by apply settleLoop_channels.
Qed.

(** C9. A settler pass returns the context it was given; it leaves every
    state object (so [leaned] and [settleServoFilter]), the [justLeaned] flag
    and the [servosActive] Set as they were, and on every servo object it
    leaves [index], [position.goal] and [position.neutral] unchanged. *)
Theorem settleServos_frame {I} (context : Context I) (w : World) :
  let res := settleServos context w in
  fst res = context ∧
  states (snd res) = states w ∧
  nextLoc (snd res) = nextLoc w ∧
  justLeaned (snd res) = justLeaned w ∧
  servosActive (snd res) = servosActive w ∧
  ∀ r, index (heap (snd res) r) = index (heap w r) ∧
       goal (position (heap (snd res) r)) = goal (position (heap w r)) ∧
       neutral (position (heap (snd res) r)) = neutral (position (heap w r)).
Proof.
  simpl. repeat split; apply settleLoop_targets.
Qed.

End SettlerProofs.

Section LeanProofs.
Context `{Cal : Calibration}.

Lemma write_goal_eq r v (h : Heap) : goal (position (write_goal r v h r)) = v.
Proof. unfold write_goal. by rewrite heap_insert_eq. Qed.

Lemma write_goal_ne r r' v (h : Heap) : r ≠ r' → write_goal r v h r' = h r'.
Proof. intros. unfold write_goal. by rewrite heap_insert_ne. Qed.

Lemma write_goal_but_goal r r' v (h : Heap) :
  same_but_goal (write_goal r v h r') (h r').
Proof.
  destruct (decide (r = r')) as [->|Hne].
  - unfold write_goal. rewrite heap_insert_eq. done.
  - by rewrite write_goal_ne.
Qed.

Lemma same_but_goal_trans (s1 s2 s3 : Servo) :
  same_but_goal s1 s2 → same_but_goal s2 s3 → same_but_goal s1 s3.
Proof. unfold same_but_goal. intuition congruence. Qed.

Lemma leanSide_frame ax ay side (h : Heap) r :
  r ∉ legRefs side → leanSide ax ay side h r = h r.
Proof.
  revert h. induction side as [|l side IH]; intros h Hr; [done|].
  cbn [legRefs flat_map app] in Hr.
  apply not_elem_of_cons in Hr as [He Hr].
  apply not_elem_of_cons in Hr as [Hs Hr].
  cbn [leanSide]. rewrite IH by done.
  rewrite write_goal_ne by done. by rewrite write_goal_ne.
Qed.

Lemma leanSide_but_goal ax ay side (h : Heap) r :
  same_but_goal (leanSide ax ay side h r) (h r).
Proof.
  revert h. induction side as [|l side IH]; intros h; [done|].
  cbn [leanSide]. eapply same_but_goal_trans; [apply IH|].
  eapply same_but_goal_trans; apply write_goal_but_goal.
Qed.

Lemma legRefs_elem (side : list Leg) l :
  l ∈ side → elbow l ∈ legRefs side ∧ shoulder l ∈ legRefs side.
Proof.
  intros Hl. unfold legRefs. split; apply list_elem_of_In, in_flat_map;
    exists l; (split; [by apply list_elem_of_In|]); simpl; auto.
Qed.

(** One loop of [lean] over pairs of distinct servo objects. *)
Lemma leanSide_spec ax ay side (h : Heap) :
  NoDup (legRefs side) →
  ∀ l, l ∈ side →
    goal (position (leanSide ax ay side h (elbow l))) =
      scaleAxisToServo ax (h (elbow l)) ∧
    goal (position (leanSide ax ay side h (shoulder l))) =
      scaleAxisToServo ay (h (shoulder l)).
Proof.
  revert h. induction side as [|l0 side IH]; intros h Hnd l Hl.
  { by apply elem_of_nil in Hl. }
  cbn [legRefs flat_map app] in Hnd.
  apply list.NoDup_cons in Hnd as [He Hnd].
  apply list.NoDup_cons in Hnd as [Hs Hnd].
  apply not_elem_of_cons in He as [Hes He].
  cbn [leanSide].
  set (h1 := write_goal (elbow l0) (scaleAxisToServo ax (h (elbow l0))) h).
  set (h2 := write_goal (shoulder l0) (scaleAxisToServo ay (h1 (shoulder l0))) h1).
  apply elem_of_cons in Hl as [->|Hl].
  - rewrite !leanSide_frame by done. split.
    + unfold h2. rewrite write_goal_ne by done. apply write_goal_eq.
    + unfold h2. rewrite write_goal_eq. unfold h1. by rewrite write_goal_ne.
  - destruct (legRefs_elem side l Hl) as [Hle Hls].
    destruct (IH h2 Hnd l Hl) as [IHe IHs]. rewrite IHe, IHs.
    assert (∀ r, r ∈ legRefs side → h2 r = h r) as Hsame.
    { intros r Hr. unfold h2, h1.
      assert (elbow l0 ≠ r) by (intros Heq; by rewrite <- Heq in Hr).
      assert (shoulder l0 ≠ r) by (intros Heq; by rewrite <- Heq in Hr).
      by rewrite !write_goal_ne. }
    by rewrite !Hsame.
Qed.

Lemma resetLegs_frame rs (h : Heap) r : r ∉ rs → resetLegs rs h r = h r.
Proof.
  revert h. induction rs as [|r0 rs IH]; intros h Hr; [done|].
  apply not_elem_of_cons in Hr as [Hne Hr]. cbn [resetLegs].
  rewrite IH by done. by apply write_goal_ne.
Qed.

Lemma resetLegs_but_goal rs (h : Heap) r : same_but_goal (resetLegs rs h r) (h r).
Proof.
  revert h. induction rs as [|r0 rs IH]; intros h; [done|].
  cbn [resetLegs]. eapply same_but_goal_trans; [apply IH|].
  apply write_goal_but_goal.
Qed.

(** The reset loop leaves every listed servo at its neutral goal. *)
Lemma resetLegs_goal rs (h : Heap) r :
  r ∈ rs → goal (position (resetLegs rs h r)) = neutral (position (h r)).
Proof.
  revert h. induction rs as [|r0 rs IH]; intros h Hr.
  { by apply elem_of_nil in Hr. }
  cbn [resetLegs].
  set (h1 := write_goal r0 (neutral (position (h r0))) h).
  assert (neutral (position (h1 r)) = neutral (position (h r))) as Hn.
  { apply (write_goal_but_goal r0 r). }
  destruct (decide (r ∈ rs)) as [Hin|Hnin].
  - by rewrite IH.
  - apply elem_of_cons in Hr as [->|Hr]; [|done].
    rewrite resetLegs_frame by done. apply write_goal_eq.
Qed.

Lemma lean_heap context (w : World) :
  heap (snd (lean context w)) = heap (leanEffect context w).
Proof. done. Qed.

(** After any call the flag holds the level of the button in that call. *)
Lemma lean_flag context (w : World) :
  justLeaned (snd (lean context w)) = shouldLean context.
Proof.
  unfold lean, leanEffect. simpl.
  destruct (shouldLean context); [done|].
  by destruct (justLeaned w) eqn:Hj.
Qed.

Lemma leanEffect_but_goal context (w : World) r :
  same_but_goal (heap (leanEffect context w) r) (heap w r).
Proof.
  unfold leanEffect. destruct (shouldLean context); simpl.
  - eapply same_but_goal_trans; apply leanSide_but_goal.
  - destruct (justLeaned w); simpl; [apply resetLegs_but_goal|done].
Qed.

Lemma leanWorlds_flag cs (w : World) j c i wi :
  cs !! j = Some c → i = S j → leanWorlds cs w !! i = Some wi →
  justLeaned wi = shouldLean c.
Proof.
  revert w j i. induction cs as [|c0 cs IH]; intros w j i Hc -> Hw; [done|].
  destruct j as [|j]; simpl in *.
  - injection Hc as ->. destruct cs; simpl in Hw; [done|].
    injection Hw as <-. apply lean_flag.
  - by eapply IH.
Qed.

(** C3. A call of [lean] with the lean button pressed and right-stick axes
    [(x, y)], on legs made of distinct servo objects: every left pair gets
    elbow goal [scale(-x, elbow)] and shoulder goal [scale(y, shoulder)];
    every right pair gets elbow goal [scale(-x, elbow)] and shoulder goal
    [scale(-y, shoulder)]. Both sides pass the same [-x] for the elbow and
    differ only in the sign of [y] for the shoulder. *)
Theorem lean_mirrored (context : Context Input) (w : World) :
  let lg := legs (servos (states w (state context))) in
  let xr := x (axes_right (input context)) in
  let yr := y (axes_right (input context)) in
  let w' := snd (lean context w) in
  shouldLean context = true →
  NoDup (legRefs (left lg) ++ legRefs (right lg)) →
  (∀ l, l ∈ left lg →
     goal (position (heap w' (elbow l))) =
       scaleAxisToServo (neg xr) (heap w (elbow l)) ∧
     goal (position (heap w' (shoulder l))) =
       scaleAxisToServo yr (heap w (shoulder l))) ∧
  (∀ l, l ∈ right lg →
     goal (position (heap w' (elbow l))) =
       scaleAxisToServo (neg xr) (heap w (elbow l)) ∧
     goal (position (heap w' (shoulder l))) =
       scaleAxisToServo (neg yr) (heap w (shoulder l))).
Proof.
  intros lg xr yr w' Hpress Hnd.
  apply list.NoDup_app in Hnd as (Hl & Hdisj & Hr).
  unfold w'. rewrite lean_heap. unfold leanEffect. rewrite Hpress.
  fold lg xr yr. cbn [with_heap_flag heap].
  set (h1 := leanSide (neg xr) yr (left lg) (heap w)).
  split.
  - intros l Hin. destruct (legRefs_elem _ _ Hin) as [He Hs].
    rewrite !leanSide_frame by (by apply Hdisj).
    by apply leanSide_spec.
  - intros l Hin. destruct (legRefs_elem _ _ Hin) as [He Hs].
    destruct (leanSide_spec (neg xr) (neg yr) (right lg) h1 Hr l Hin) as [-> ->].
    unfold h1. rewrite !leanSide_frame; [done| |].
    + intros Hin'. by apply (Hdisj _ Hin').
    + intros Hin'. by apply (Hdisj _ Hin').
Qed.

(** C2. Over successive calls of [lean] that share the [justLeaned] flag,
    call [i] runs the reset branch exactly when the button is not pressed in
    call [i] and was pressed in call [i - 1] (for the first call: when the
    flag was set beforehand). A call that runs it leaves the goal of every
    servo of [legs.all()] at its neutral; a call with the button not pressed
    that does not run it leaves all servo objects alone. *)
Theorem lean_edge_triggered (cs : list (Context Input)) (w : World)
    (i : nat) (c : Context Input) (wi : World) :
  cs !! i = Some c →
  leanWorlds cs w !! i = Some wi →
  (lean_resets c wi = true ↔
     shouldLean c = false ∧
     match i with
     | O => justLeaned w = true
     | S j => ∃ c', cs !! j = Some c' ∧ shouldLean c' = true
     end) ∧
  (lean_resets c wi = true →
     ∀ r, r ∈ legs_all (legs (servos (states wi (state c)))) →
          goal (position (heap (snd (lean c wi)) r)) =
          neutral (position (heap wi r))) ∧
  (lean_resets c wi = false → shouldLean c = false →
     heap (snd (lean c wi)) = heap wi).
Proof.
  intros Hc Hw. unfold lean_resets. split; [split|split].
  - intros Hres. apply andb_prop in Hres as [Hnp Hj].
    apply negb_true_iff in Hnp. split; [done|]. destruct i as [|j].
    + destruct cs; simpl in Hw; [done|]. by injection Hw as ->.
    + destruct (cs !! j) as [c'|] eqn:Hc'.
      * exists c'. split; [done|].
        by rewrite <- (leanWorlds_flag cs w j c' (S j) wi Hc' eq_refl Hw).
      * apply lookup_ge_None in Hc'. apply lookup_lt_Some in Hc. lia.
  - intros [Hnp Hprev]. rewrite Hnp. simpl. destruct i as [|j].
    + destruct cs; simpl in Hw; [done|]. by injection Hw as <-.
    + destruct Hprev as (c' & Hc' & Hp).
      by rewrite (leanWorlds_flag cs w j c' (S j) wi Hc' eq_refl Hw).
  - intros Hres r Hr. apply andb_prop in Hres as [Hnp Hj].
    apply negb_true_iff in Hnp.
    rewrite lean_heap. unfold leanEffect. rewrite Hnp, Hj. simpl.
    by apply resetLegs_goal.
  - intros Hres Hnp. rewrite Hnp in Hres. simpl in Hres.
    rewrite lean_heap. unfold leanEffect. by rewrite Hnp, Hres.
Qed.

End LeanProofs.

(** Case analysis on the sign under every absolute value in sight. *)
Ltac abs_cases :=
  repeat match goal with
  | |- context [Qabs ?t] =>
      let Hs := fresh "Hs" in
      assert (Hs : (0 <= t ∧ Qabs t == t)%Q ∨ (t <= 0 ∧ Qabs t == - t)%Q)
        by (destruct (Qlt_le_dec t 0);
            [right; split; [lra|apply Qabs_neg; lra]
            |left; split; [lra|apply Qabs_pos; lra]]);
      generalize dependent (Qabs t); intros
  | H : context [Qabs ?t] |- _ =>
      let Hs := fresh "Hs" in
      assert (Hs : (0 <= t ∧ Qabs t == t)%Q ∨ (t <= 0 ∧ Qabs t == - t)%Q)
        by (destruct (Qlt_le_dec t 0);
            [right; split; [lra|apply Qabs_neg; lra]
            |left; split; [lra|apply Qabs_pos; lra]]);
      generalize dependent (Qabs t); intros
  end;
  repeat match goal with
  | H : (_ ∧ _) ∨ (_ ∧ _) |- _ => destruct H as [[? ?]|[? ?]]
  end.

(** A number nearest to [t] among numbers that include [a] and [b] lies
    between [a] and [b] when [t] does. *)
Lemma nearest_between (x t a b : Q) :
  (Qabs (x - t) <= Qabs (a - t))%Q → (Qabs (x - t) <= Qabs (b - t))%Q →
  (a <= t)%Q → (t <= b)%Q → (a <= x)%Q ∧ (x <= b)%Q.
Proof. intros Ha Hb Hat Htb. abs_cases; lra. Qed.

(** The arithmetic of one step: the rounded error [ve] is within half of the
    exact difference, the delta [vd] lies between 0 and [ve], and the new
    current [vc'] is nearest to [vc + vd] among numbers that include the old
    current and the goal. *)
Lemma step_contracts (vg vc ve vd vc' : Q) :
  (Qabs (ve - (vg - vc)) <= (1 # 2) * Qabs (vg - vc))%Q →
  ((0 <= vd)%Q ∧ (vd <= ve)%Q ∨ (ve <= vd)%Q ∧ (vd <= 0)%Q) →
  (Qabs (vc' - (vc + vd)) <= Qabs (vc - (vc + vd)))%Q →
  (Qabs (vc' - (vc + vd)) <= Qabs (vg - (vc + vd)))%Q →
  (Qabs (vg - vc') <= Qabs (vg - vc))%Q.
Proof. intros He Hd Hc Hg. destruct Hd as [[? ?]|[? ?]]; abs_cases; lra. Qed.

Section Convergence.
Context `{A : Arith} {Rd : @Rounding A} {Ctl : @Controller A}.
Context (k M : Q).
Hypothesis gain_pos : (0 < k)%Q.
Hypothesis gain_le_1 : (k <= 1)%Q.
Hypothesis proportional_step : proportionalStep k.
Hypothesis range : (6 * M <= bound)%Q.

(** One step of a servo in range: every operation stays finite, and the gap
    does not grow. *)
Lemma settleServo_contracts servo :
  inRange M servo →
  finite (current (position (settleServo servo))) ∧
  (gap (settleServo servo) <= gap servo)%Q.
Proof using gain_pos gain_le_1 proportional_step range.
  intros (Hfg & Hfc & HgM & Hgap). unfold gap in *.
  rewrite settleServo_goal, settleServo_current.
  set (g := goal (position servo)) in *. set (c := current (position servo)) in *.
  pose proof (Qabs_nonneg (val g)) as HM0.
  destruct (sub_rounds g c Hfg Hfc) as (Hfe & Hne & Hre); [lra|].
  set (e := sub g c) in *.
  destruct zero_val as [Hfz Hz].
  assert (Qabs (val e) <= (3 # 2) * Qabs (val g - val c))%Q as Hve.
  { clear -Hre. abs_cases; lra. }
  assert ((0 <= k * val e)%Q ∧ (k * val e <= val e)%Q ∨
          (val e <= k * val e)%Q ∧ (k * val e <= 0)%Q) as Hke.
  { destruct (Qlt_le_dec (val e) 0) as [Hneg|Hpos].
    - right. split; nra.
    - left. split; nra. }
  destruct (proportional_step (pid servo) e Hfe) as (Hfd & Hnd).
  { clear -Hve Hke Hgap range HM0 HgM. destruct Hke as [[? ?]|[? ?]]; abs_cases; lra. }
  set (d := fst (pid_step (pid servo) e)) in *.
  assert ((0 <= val d)%Q ∧ (val d <= val e)%Q ∨
          (val e <= val d)%Q ∧ (val d <= 0)%Q) as Hd.
  { pose proof (Hnd zero Hfz) as H0. pose proof (Hnd e Hfe) as H1.
    rewrite Hz in H0. destruct Hke as [[? ?]|[? ?]].
    - left. apply (nearest_between _ (k * val e)); [done..|lra|lra].
    - right. apply (nearest_between _ (k * val e)); [done..|lra|lra]. }
  destruct (add_rounds c d Hfc Hfd) as (Hfc' & Hnc).
  { clear -Hve Hd Hgap range HM0 HgM.
    destruct Hd as [[? ?]|[? ?]]; abs_cases; lra. }
  split; [done|].
  apply (step_contracts _ _ (val e) (val d)); [done|done|by apply Hnc..].
Qed.

Lemma inRange_settled servo : inRange M servo → inRange M (settleServo servo).
Proof using gain_pos gain_le_1 proportional_step range.
  intros Hin. destruct (settleServo_contracts servo Hin) as [Hf Hle].
  destruct Hin as (Hfg & Hfc & HgM & Hgap). unfold inRange.
  rewrite settleServo_goal. do 3 (split; [done|]). lra.
Qed.

(** A pass keeps a servo in range and does not widen its gap, however often
    the collection lists it. *)
Lemma settleLoop_contracts flt rs (h : Heap) log r :
  inRange M (h r) →
  inRange M (fst (settleLoop flt rs h log) r) ∧
  (gap (fst (settleLoop flt rs h log) r) <= gap (h r))%Q.
Proof using gain_pos gain_le_1 proportional_step range.
  revert h log. induction rs as [|r0 rs IH]; intros h log Hin; cbn [settleLoop].
  { split; [done|apply Qle_refl]. }
  destruct (skipped flt (h r0)); [by apply IH|].
  destruct (decide (r0 = r)) as [->|Hne].
  - destruct (IH (<[r := settleServo (h r)]> h)
                (log ++ [mkPwmWrite (index (settleServo (h r))) 0
                           (current (position (settleServo (h r))))])) as [Hin' Hle].
    { rewrite heap_insert_eq. by apply inRange_settled. }
    split; [done|]. eapply Qle_trans; [apply Hle|].
    rewrite heap_insert_eq. by apply settleServo_contracts.
  - destruct (IH (<[r0 := settleServo (h r0)]> h)
                (log ++ [mkPwmWrite (index (settleServo (h r0))) 0
                           (current (position (settleServo (h r0))))])) as [Hin' Hle].
    { by rewrite heap_insert_ne. }
    split; [done|]. by rewrite heap_insert_ne in Hle.
Qed.

Lemma settlePasses_inRange {I} n (context : Context I) (w : World) r :
  inRange M (heap w r) → inRange M (heap (settlePasses n context w) r).
Proof using gain_pos gain_le_1 proportional_step range.
  intros Hin. induction n as [|n IH]; [done|].
  cbn [settlePasses]. unfold settleServos. cbn [snd with_heap_pwm heap].
  by apply settleLoop_contracts.
Qed.

End Convergence.

(** C6. Numbers that round to nearest, as doubles do, and a purely
    proportional controller, [step(error) = k * error] rounded, with gain
    [0 < k <= 1]. For a servo whose goal and current are finite and within
    [M] in magnitude, where magnitudes up to [6 * M] do not overflow, the
    distance [|goal - current|] after each settler pass is at most the
    distance before it, tick after tick; the pass never changes the goal. *)
Theorem settle_monotone `{A : Arith} (Rd : @Rounding A) (Ctl : @Controller A)
    (k M : Q) {I} (context : Context I) (w : World) (r : ref) (n : nat) :
  (0 < k)%Q → (k <= 1)%Q → proportionalStep k → (6 * M <= bound)%Q →
  finite (goal (position (heap w r))) →
  finite (current (position (heap w r))) →
  (Qabs (val (goal (position (heap w r)))) <= M)%Q →
  (Qabs (val (current (position (heap w r)))) <= M)%Q →
  (gap (heap (settlePasses (S n) context w) r) <=
   gap (heap (settlePasses n context w) r))%Q ∧
  goal (position (heap (settlePasses (S n) context w) r)) =
  goal (position (heap (settlePasses n context w) r)).
Proof.
  intros Hpos Hle Hprop Hrange Hfg Hfc HgM HcM.
  assert (inRange M (heap w r)) as Hin.
  { unfold inRange, gap. do 3 (split; [done|]). clear -HgM HcM. abs_cases; lra. }
  split; [|apply settleLoop_targets].
  cbn [settlePasses]. unfold settleServos. cbn [snd with_heap_pwm heap].
  apply (settleLoop_contracts k M Hpos Hle Hprop Hrange).
  by apply (settlePasses_inRange k M Hpos Hle Hprop Hrange).
Qed.

Section PipelineProofs.
Context `{Ges : Gestures}.

Lemma leanEffect_rest context (w : World) :
  pwm (leanEffect context w) = pwm w ∧
  states (leanEffect context w) = states w ∧
  nextLoc (leanEffect context w) = nextLoc w ∧
  servosActive (leanEffect context w) = servosActive w.
Proof.
  unfold leanEffect. destruct (shouldLean context); [done|].
  by destruct (justLeaned w).
Qed.







End PipelineProofs.

Section RampProofs.

Lemma advance_exhausted n : advance n None [] = None.
Proof. induction n as [|n IH]; [done|]. apply IH. Qed.

(** The inner [for] loop, started after one [next()], ends on the value at
    position [n] of the iteration order. *)
Lemma advance_lookup n v it :
  advance n v it = from_option id None ((v :: it) !! n).
Proof.
  revert v it. induction n as [|n IH]; intros v it; [done|].
  destruct it as [|u it]; cbn [advance next].
  - rewrite advance_exhausted. by destruct n.
  - by rewrite IH.
Qed.

Lemma pickServo_lookup r (servosRemaining : list (option Z)) :
  pickServo r servosRemaining =
  from_option id None
    (servosRemaining !! Z.to_nat (randomIndex r (length servosRemaining) - 1)).
Proof.
  unfold pickServo. destruct servosRemaining as [|v it].
  - cbn [next]. by rewrite advance_exhausted.
  - cbn [next]. apply advance_lookup.
Qed.

(** A draw in [[0, 1)] gives an index in [[0, size)]. *)
Lemma randomIndex_range r size :
  (0 <= r)%Q → (r < 1)%Q → (0 < size)%nat →
  (0 <= randomIndex r size < Z.of_nat size)%Z.
Proof.
  intros H0 H1 Hsz. unfold randomIndex.
  set (n := Z.of_nat size). assert (0 < n)%Z as Hn by lia.
  assert (0 < inject_Z n)%Q as HnQ.
  { change 0%Q with (inject_Z 0). rewrite <- Zlt_Qlt. lia. }
  split.
  - change 0%Z with (Qfloor 0). apply Qfloor_resp_le.
    apply Qmult_le_0_compat; lra.
  - rewrite Zlt_Qlt. eapply Qle_lt_trans; [apply Qfloor_le|].
    assert (r * inject_Z n < 1 * inject_Z n)%Q; [|lra].
    apply Qmult_lt_compat_r; lra.
Qed.

(** Draws below [2 / size] all give index 0 or 1. *)
Lemma randomIndex_low r size :
  (0 <= r)%Q → (r * inject_Z (Z.of_nat size) < 2)%Q →
  (randomIndex r size <= 1)%Z.
Proof.
  intros H0 H2. unfold randomIndex.
  assert (Qfloor (r * inject_Z (Z.of_nat size)) < 2)%Z; [|lia].
  rewrite Zlt_Qlt. eapply Qle_lt_trans; [apply Qfloor_le|done].
Qed.

(** C8, on the code. With two or more indices remaining and a draw in
    [[0, 1)], the pick is not uniform: the index iterated last is never
    picked, and every draw below [2 / size] picks the index iterated first
    (the inner loop starts counting at 1, so draws with
    [Math.floor(r * size)] equal to 0 and to 1 stop on the same element). *)
Theorem pickServo_skewed (r : Q) (servosRemaining : IndexSet) :
  (0 <= r)%Q → (r < 1)%Q →
  NoDup servosRemaining → 2 ≤ length servosRemaining →
  (∀ v, list.last servosRemaining = Some v → pickServo r servosRemaining ≠ v) ∧
  (∀ v, list.head servosRemaining = Some v →
        (r * inject_Z (Z.of_nat (length servosRemaining)) < 2)%Q →
        pickServo r servosRemaining = v).
Proof.
  intros H0 H1 Hnd Hlen.
  pose proof (randomIndex_range r (length servosRemaining) H0 H1) as Hidx.
  rewrite pickServo_lookup. split.
  - intros v Hlast.
    set (pos := Z.to_nat (randomIndex r (length servosRemaining) - 1)).
    assert (pos < length servosRemaining - 1) as Hpos by (unfold pos; lia).
    destruct (lookup_lt_is_Some_2 servosRemaining pos) as [u Hu]; [lia|].
    rewrite Hu. simpl. intros ->. rewrite last_lookup in Hlast.
    pose proof (NoDup_lookup _ _ _ _ Hnd Hu Hlast). lia.
  - intros v Hhead Hlow.
    pose proof (randomIndex_low r (length servosRemaining) H0 Hlow).
    replace (Z.to_nat (randomIndex r (length servosRemaining) - 1)) with 0 by lia.
    rewrite head_lookup in Hhead. by rewrite Hhead.
Qed.


End RampProofs.

Section OrchestratorProofs.
Context `{Ges : Gestures}.



Lemma set_delete_absent v (s : list (option Z)) : v ∉ s → set_delete v s = s.
Proof.
  induction s as [|u s IH]; intros Hv; [done|].
  apply not_elem_of_cons in Hv as [Hne Hv]. unfold set_delete in *.
  rewrite filter_cons_True by done. by rewrite IH.
Qed.

Lemma set_delete_perm v (s : list (option Z)) :
  NoDup s → v ∈ s → s ≡ₚ v :: set_delete v s.
Proof.
  induction s as [|u s IH]; intros Hnd Hv; [by apply elem_of_nil in Hv|].
  apply list.NoDup_cons in Hnd as [Hu Hnd].
  destruct (decide (u = v)) as [->|Hne].
  - assert (set_delete v (v :: s) = set_delete v s) as ->.
    { unfold set_delete. apply filter_cons_False. intros Hn. by apply Hn. }
    by rewrite (set_delete_absent v s Hu).
  - assert (set_delete v (u :: s) = u :: set_delete v s) as ->.
    { unfold set_delete. by apply filter_cons_True. }
    apply elem_of_cons in Hv as [->|Hv]; [done|].
    rewrite (IH Hnd Hv) at 1. apply Permutation_swap.
Qed.

Lemma set_add_fresh v (s : IndexSet) : v ∉ s → set_add v s = s ++ [v].
Proof.
  intros Hv. unfold set_add, set_has. by rewrite bool_decide_eq_false_2.
Qed.

Lemma set_add_NoDup v (s : IndexSet) : NoDup s → NoDup (set_add v s).
Proof.
  intros Hnd. unfold set_add, set_has. case_bool_decide; [done|].
  apply list.NoDup_app. repeat split; [done| |apply NoDup_singleton].
  intros u Hu ->%list_elem_of_singleton. done.
Qed.

Lemma set_of_NoDup l : NoDup (set_of l).
Proof.
  unfold set_of. assert (NoDup (@nil (option Z))) as Hnil by apply NoDup_nil_2.
  revert Hnil. generalize (@nil (option Z)).
  induction l as [|v l IH]; intros s Hs; [done|].
  cbn [fold_left]. apply IH. by apply set_add_NoDup.
Qed.

(** A valid draw picks one of the remaining indices. *)
Lemma pickServo_elem r (servosRemaining : list (option Z)) :
  validDraw r → servosRemaining ≠ [] →
  pickServo r servosRemaining ∈ servosRemaining.
Proof.
  intros [H0 H1] Hne. rewrite pickServo_lookup.
  assert (0 < length servosRemaining) as Hlen.
  { destruct servosRemaining; [done|simpl; lia]. }
  pose proof (randomIndex_range r _ H0 H1 Hlen) as Hidx.
  destruct (lookup_lt_is_Some_2 servosRemaining
              (Z.to_nat (randomIndex r (length servosRemaining) - 1))) as [u Hu];
    [lia|].
  rewrite Hu. simpl. by eapply list_elem_of_lookup_2.
Qed.

(** One slice of the [while] loop keeps the invariant and makes progress. *)
Lemma rampWhile_step r servosRemaining later (m : Machine) L :
  validDraw r →
  NoDup (servosActive (world m) ++ servosRemaining ++ concat later) →
  servosActive (world m) ++ servosRemaining ++ concat later ≡ₚ L →
  rampInv L (rampWhile r servosRemaining later m) ∧
  rampMeasure (ramp (rampWhile r servosRemaining later m))
    < rampMeasure (RampWhile servosRemaining later).
Proof.
  intros Hr Hnd Hperm. destruct servosRemaining as [|u rem].
  { cbn [rampWhile rampMeasure pending ramp world length].
    split; [|lia]. unfold rampInv. cbn [ramp world pending]. done. }
  set (rem0 := u :: rem) in *.
  assert (rampWhile r rem0 later m =
          mkMachine (with_active (world m)
                       (set_add (pickServo r rem0) (servosActive (world m))))
            (mainState m) (rampState m)
            (RampWhile (set_delete (pickServo r rem0) rem0) later)) as -> by done.
  set (v := pickServo r rem0).
  assert (v ∈ rem0) as Hv by (by apply pickServo_elem).
  apply list.NoDup_app in Hnd as (HA & Hdisj & Hrest).
  apply list.NoDup_app in Hrest as (Hrem & Hdisj2 & Hlater).
  assert (v ∉ servosActive (world m)) as HvA.
  { intros Hin. apply (Hdisj _ Hin). apply elem_of_app. by left. }
  pose proof (set_delete_perm v rem0 Hrem Hv) as Hdel.
  cbn [ramp world with_active servosActive pending rampMeasure].
  rewrite (set_add_fresh _ _ HvA).
  assert ((servosActive (world m) ++ [v]) ++ set_delete v rem0 ++ concat later
          ≡ₚ servosActive (world m) ++ rem0 ++ concat later) as Hsame.
  { rewrite <- app_assoc. cbn [app]. by rewrite (app_comm_cons _ _ v), <- Hdel. }
  split.
  - unfold rampInv. cbn [ramp world with_active servosActive pending].
    split; [done|]. split; [|split; [by rewrite Hsame|done]].
    rewrite Hsame. apply list.NoDup_app. repeat split; [done..|].
    by apply list.NoDup_app.
  - apply Permutation_length in Hdel. cbn [length] in Hdel. lia.
Qed.

Lemma rampResume_step r (m : Machine) L :
  validDraw r → rampInv L m → ramp m ≠ RampDone →
  rampInv L (rampResume r m) ∧
  rampMeasure (ramp (rampResume r m)) < rampMeasure (ramp m).
Proof.
  intros Hr (Hidle & Hnd & Hperm & _) Hdone. unfold rampResume.
  destruct (ramp m) as [|rem later|[|rem later]|] eqn:Hramp; try done.
  - by apply rampWhile_step.
  - cbn [ramp rampMeasure]. split; [|cbn; lia].
    unfold rampInv. cbn [ramp world with_filter servosActive pending states
                          rampState].
    cbn [pending concat] in Hnd, Hperm.
    split; [done|]. split; [done|]. split; [done|].
    intros _. by rewrite fn_lookup_insert.
  - cbn [pending concat] in Hnd, Hperm.
    destruct (rampWhile_step r rem later m L Hr Hnd Hperm) as [Hinv Hlt].
    split; [done|]. cbn [rampMeasure foldr] in *. lia.
Qed.

Lemma rampResume_done r (m : Machine) : ramp m = RampDone → rampResume r m = m.
Proof. intros Hd. unfold rampResume. by rewrite Hd. Qed.

Lemma rampWhile_vars r rem later (m : Machine) :
  mainState (rampWhile r rem later m) = mainState m ∧
  rampState (rampWhile r rem later m) = rampState m.
Proof. by destruct rem. Qed.

Lemma rampResume_vars r (m : Machine) :
  mainState (rampResume r m) = mainState m ∧
  rampState (rampResume r m) = rampState m.
Proof.
  unfold rampResume.
  destruct (ramp m) as [|rem later|[|rem later]|]; try done;
    apply rampWhile_vars.
Qed.

(** Enough timers with valid draws bring a started sequencer to its end. *)
Lemma ramp_runs_out rs (m : Machine) L :
  rampInv L m → Forall validDraw rs → rampMeasure (ramp m) ≤ length rs →
  let m' := run (map EvRamp rs) m in
  rampInv L m' ∧ ramp m' = RampDone ∧
  mainState m' = mainState m ∧ rampState m' = rampState m.
Proof.
  revert m. induction rs as [|r rs IH]; intros m Hinv Hrs Hlen.
  { cbn. split; [done|]. split; [|done]. destruct Hinv as [Hidle _].
    destruct (ramp m); cbn in Hlen; (done || lia). }
  apply list.Forall_cons in Hrs as [Hr Hrs].
  cbn [map run fold_left handle]. fold (run (map EvRamp rs) (rampResume r m)).
  destruct (rampResume_vars r m) as [<- <-].
  assert (ramp m = RampDone ∨ ramp m ≠ RampDone) as [Hd|Hnd]
    by (destruct (ramp m); auto).
  - rewrite (rampResume_done r m Hd). apply IH; [done..|]. rewrite Hd. cbn. lia.
  - destruct (rampResume_step r m L Hr Hinv Hnd) as [Hinv' Hlt].
    apply IH; [done..|]. cbn [length] in Hlen. lia.
Qed.

(** The startup ramp left to itself. With draws in [[0, 1)] and no index both
    in the even and in the odd set, a sequencer that gets its timers, as many
    as both sets hold plus two, runs to its end; by then the active set holds the even and odd indices, each
    once, and the state the orchestrator holds -- still the object the
    sequencer was given -- has no filter. *)
Lemma ramp_coverage (w : World) (st : loc) (r0 : Q) (rs : list Q) :
  let evenServos := set_of (indices (heap w) (even (servos (states w st)))) in
  let oddServos := set_of (indices (heap w) (odd (servos (states w st)))) in
  let m := run (map EvRamp rs) (main r0 w st) in
  (∀ v, v ∈ evenServos → v ∉ oddServos) →
  validDraw r0 → Forall validDraw rs →
  length evenServos + length oddServos + 2 ≤ length rs →
  ramp m = RampDone ∧
  servosActive (world m) ≡ₚ evenServos ++ oddServos ∧
  mainState m = st ∧
  settleServoFilter (states (world m) (mainState m)) = None.
Proof.
  intros evenServos oddServos m Hdisj Hr0 Hrs Hlen.
  set (m0 := mkMachine (with_filter (with_active w []) st (Some startupFilter))
               st st RampIdle).
  assert (main r0 w st = rampWhile r0 evenServos [oddServos] m0) as Hboot by done.
  destruct (rampWhile_step r0 evenServos [oddServos] m0 (evenServos ++ oddServos))
    as [Hinv Hlt]; [done| | |].
  { cbn [m0 world with_filter with_active servosActive app concat].
    rewrite app_nil_r. apply list.NoDup_app.
    repeat split; [apply set_of_NoDup|done|apply set_of_NoDup]. }
  { cbn [m0 world with_filter with_active servosActive app concat].
    by rewrite app_nil_r. }
  rewrite <- Hboot in Hinv, Hlt.
  destruct (ramp_runs_out rs (main r0 w st) (evenServos ++ oddServos) Hinv Hrs)
    as (Hinv' & Hdone & Hmain & Hramp).
  { cbn [rampMeasure foldr] in Hlt. lia. }
  fold m in Hinv', Hdone, Hmain, Hramp.
  destruct Hinv' as (_ & _ & Hperm & Hflt).
  rewrite Hdone in Hperm. cbn [pending] in Hperm. rewrite app_nil_r in Hperm.
  assert (mainState (main r0 w st) = st ∧ rampState (main r0 w st) = st) as [Hm Hrst].
  { rewrite Hboot. apply rampWhile_vars. }
  repeat split; [done|done|congruence|].
  rewrite Hmain, Hm. specialize (Hflt Hdone). by rewrite Hramp, Hrst in Hflt.
Qed.


End OrchestratorProofs.

(** * The model on the concrete rigs *)

Section Evaluations.
Import Rig.

Lemma rig_NoDup : NoDup (all rigServos).
Proof. apply (bool_decide_unpack (NoDup _)). vm_compute. exact I. Defined.

(** C1 on the rig. With no filter set every servo moves from 300 half of the
    way to 340 and the four channels are written in the order of [all()];
    with the even channels admitted only, servo 0 moves and the writes go to
    channels 0 and 2. *)
Lemma settleServos_contract_witness :
  NoDup (all rigServos) ∧
  map (λ r, current (position (heap (snd (settleServos tickCtx (rigWorld None))) r)))
      [0; 1; 2; 3] = [320; 320; 320; 320]%Z ∧
  pwm (snd (settleServos tickCtx (rigWorld None))) =
    [@mkPwmWrite ZArithmetic 0 0 320%Z; @mkPwmWrite ZArithmetic 1 0 320%Z;
     @mkPwmWrite ZArithmetic 2 0 320%Z; @mkPwmWrite ZArithmetic 3 0 320%Z] ∧
  current (position (heap (snd (settleServos tickCtx (rigWorld (Some evenOnly)))) 0))
    = 320%Z ∧
  pwm (snd (settleServos tickCtx (rigWorld (Some evenOnly)))) =
    [@mkPwmWrite ZArithmetic 0 0 320%Z; @mkPwmWrite ZArithmetic 2 0 320%Z].
Proof.
  split; [exact rig_NoDup|].
  destruct (settleServos_contract tickCtx (rigWorld None) rig_NoDup)
    as [Hcur Hlog].
  destruct (settleServos_contract tickCtx (rigWorld (Some evenOnly)) rig_NoDup)
    as [Hcur' Hlog'].
  split; [|split; [|split]].
  - cbn [map].
    destruct (Hcur 0) as [-> _]; [left|reflexivity|].
    destruct (Hcur 1) as [-> _]; [right; left|reflexivity|].
    destruct (Hcur 2) as [-> _]; [right; right; left|reflexivity|].
    destruct (Hcur 3) as [-> _]; [right; right; right; left|reflexivity|].
    reflexivity.
  - rewrite Hlog. vm_compute. reflexivity.
  - destruct (Hcur' 0) as [-> _]; [left|reflexivity|reflexivity].
  - rewrite Hlog'. vm_compute. reflexivity.
Defined.

(** C4 on the rig: servo 1, on an odd channel, is rejected and left alone. *)
Lemma settleServos_filter_exclusive_witness :
  settleServoFilter (states (rigWorld (Some evenOnly)) 0) = Some evenOnly ∧
  evenOnly [] (rigHeap 1) = false ∧
  heap (snd (settleServos tickCtx (rigWorld (Some evenOnly)))) 1 = rigHeap 1.
Proof.
  split; [reflexivity|]. split; [reflexivity|].
  refine (proj1 (settleServos_filter_exclusive tickCtx (rigWorld (Some evenOnly))
                   evenOnly 1 eq_refl eq_refl _)).
  intros r' _ Hidx. apply Nat2Z.inj. exact Hidx.
Defined.

(** C2 on [pressed, pressed, released, released]: the third call resets. *)
Lemma lean_edge_triggered_witness :
  pressRelease !! 2 = Some (leanContext [] 10 20) ∧
  lean_resets (leanContext [] 10 20)
    (snd (lean (leanContext [4%Z] 10 20)
            (snd (lean (leanContext [4%Z] 10 20) (rigWorld None))))) = true.
Proof.
  split; [reflexivity|].
  refine (proj2 (proj1 (lean_edge_triggered pressRelease (rigWorld None) 2
                          (leanContext [] 10 20) _ eq_refl eq_refl)) _).
  split; [vm_compute; reflexivity|].
  exists (leanContext [4%Z] 10 20). split; [reflexivity|vm_compute; reflexivity].
Defined.

(** On [pressed, pressed, released, released] only the third call resets. *)
Lemma press_release_resets_once :
  zip_with lean_resets pressRelease (leanWorlds pressRelease (rigWorld None)) =
  [false; false; true; false].
Proof. vm_compute. reflexivity. Qed.

Lemma rig_legs_NoDup : NoDup (legRefs (left (legs rigServos)) ++ legRefs (right (legs rigServos))).
Proof. apply (bool_decide_unpack (NoDup _)). vm_compute. exact I. Defined.

(** C3 on the rig, stick at (10, 20): both elbows get neutral - 10, the left
    shoulder neutral + 20, the right shoulder neutral - 20. *)
Lemma lean_mirrored_witness :
  shouldLean (leanContext [4%Z] 10 20) = true ∧
  map (λ r, goal (position (heap (snd (lean (leanContext [4%Z] 10 20)
                                         (rigWorld None))) r))) [1; 0; 3; 2]
  = [290; 320; 290; 280]%Z.
Proof.
  assert (shouldLean (leanContext [4%Z] 10 20) = true) as Hp
    by (vm_compute; reflexivity).
  split; [exact Hp|].
  destruct (lean_mirrored (leanContext [4%Z] 10 20) (rigWorld None) Hp rig_legs_NoDup)
    as [Hl Hr].
  destruct (Hl (mkLeg 1 0)) as [He Hs]; [left|].
  destruct (Hr (mkLeg 3 2)) as [He' Hs']; [left|].
  cbn [map]. cbn [elbow shoulder] in He, Hs, He', Hs'.
  rewrite He, Hs, He', Hs'. reflexivity.
Defined.

(** Integer division by 2 returns an integer nearest to the half. *)
Lemma half_nearest (e f : Z) :
  (Qabs (inject_Z (e / 2) - (1 # 2) * inject_Z e) <=
   Qabs (inject_Z f - (1 # 2) * inject_Z e))%Q.
Proof.
  pose proof (Z.div_mod e 2 ltac:(lia)) as Hdm.
  pose proof (Z.mod_pos_bound e 2 ltac:(lia)) as Hb.
  set (q := (e / 2)%Z) in *. set (m := (e mod 2)%Z) in *.
  assert (inject_Z e == 2 * inject_Z q + inject_Z m)%Q as He.
  { rewrite Hdm at 1. rewrite inject_Z_plus, inject_Z_mult. reflexivity. }
  assert (m = 0 ∨ m = 1)%Z as [Hm|Hm] by lia; rewrite Hm in He.
  - change (inject_Z 0) with 0%Q in He. abs_cases; lra.
  - change (inject_Z 1) with 1%Q in He.
    destruct (Z_le_gt_dec f q) as [Hle|Hgt].
    + rewrite Zle_Qle in Hle. abs_cases; lra.
    + assert (q + 1 <= f)%Z as Hge by lia. rewrite Zle_Qle in Hge.
      rewrite inject_Z_plus in Hge. change (inject_Z 1) with 1%Q in Hge.
      abs_cases; lra.
Qed.

(** The controller of the rig is proportional with gain 1/2. *)
Lemma half_proportional :
  @proportionalStep ZArithmetic integerRounding halfController (1 # 2).
Proof.
  intros st e _ _. split; [exact I|]. intros f _. apply half_nearest.
Defined.

(** C6 on the rig, gain 1/2, integers within 340: the first pass does not
    widen the gap of servo 0 (it halves it, from 40 to 20). *)
Lemma settle_monotone_witness :
  (0 < 1 # 2)%Q ∧ (1 # 2 <= 1)%Q ∧
  (6 * 340 <= @bound ZArithmetic integerRounding)%Q ∧
  Qle (@gap ZArithmetic integerRounding halfController
         (heap (settlePasses 1 tickCtx (rigWorld None)) 0))
      (@gap ZArithmetic integerRounding halfController
         (heap (rigWorld None) 0)).
Proof.
  split; [reflexivity|]. split; [discriminate|]. split; [discriminate|].
  refine (proj1 (@settle_monotone ZArithmetic integerRounding halfController
                   (1 # 2) 340 unit tickCtx (rigWorld None) 0 0
                   _ _ half_proportional _ I I _ _)).
  - reflexivity.
  - discriminate.
  - discriminate.
  - discriminate.
  - discriminate.
Defined.

(** On doubles, gain 1/2, current 2^53 and goal 2^53 + 2: the error is 2,
    the delta 1, and the sum 2^53 + 1 is a tie that rounds back to 2^53. The
    current stays where it is; the gap does not grow. *)
Lemma double_tie_keeps_current :
  current (position (settleServo
    (Doubles.servoAt 0.5 9007199254740992 9007199254740994)))
  = 9007199254740992%float.
Proof. vm_compute. reflexivity. Qed.

(** On doubles, beyond the range: from -2^1023 towards 2^1023 the error
    overflows, and the current becomes infinite. *)
Lemma double_overflow_out_of_range :
  current (position (settleServo (Doubles.servoAt 1 (-0x1p1023) 0x1p1023)))
  = infinity.
Proof. vm_compute. reflexivity. Qed.

(** On doubles, gain 1/4, from 300 towards 340: one step gives 310. *)
Lemma double_quarter_step :
  current (position (settleServo (Doubles.servoAt 0.25 300 340))) = 310%float.
Proof. vm_compute. reflexivity. Qed.

(** C8 with [{0, 2}] remaining: the draw 1/2 picks 0, like the draw 0. *)
Lemma pickServo_skewed_witness :
  (0 <= 1 # 2)%Q ∧ (1 # 2 < 1)%Q ∧
  pickServo (1 # 2) [Some 0%Z; Some 2%Z] ≠ Some 2%Z.
Proof.
  split; [discriminate|]. split; [reflexivity|].
  refine (proj1 (pickServo_skewed (1 # 2) [Some 0%Z; Some 2%Z] _ _ _ _)
            (Some 2%Z) eq_refl).
  - discriminate.
  - reflexivity.
  - apply (bool_decide_unpack (NoDup _)). vm_compute. exact I.
  - apply le_n.
Defined.





(** The earlier orchestrator deletes the filter through the variable of
    [main], so it clears the state object that is live at that time. *)
Lemma legacy_timeout_clears `{Ctl : Controller} (m : Machine) :
  settleServoFilter
    (states (world (Legacy.legacyTimeout m)) (mainState (Legacy.legacyTimeout m)))
  = None.
Proof.
  unfold Legacy.legacyTimeout, with_filter. cbn [world mainState states].
  by rewrite fn_lookup_insert.
Qed.

(** The ramp left alone: after its last timer the filter is gone from the
    state object the orchestrator holds, and all four indices were activated,
    each once. *)
Lemma ramp_completes_without_input :
  let m := runRig rampTimers rigBoot in
  ramp m = RampDone ∧
  servosActive (world m) = [Some 0; Some 2; Some 1; Some 3]%Z ∧
  mainState m = rampState m ∧
  settleServoFilter (states (world m) (mainState m)) = None.
Proof. vm_compute. repeat split. Qed.

(** C5, on the code. An input sample handled while the ramp is running makes
    [main] hold the copy of the state object that [lean] built; the final
    [delete state.settleServoFilter] acts on the object the sequencer was
    given, so the state [main] holds keeps the filter after the ramp has
    finished. That filter then admits every servo of the rig, all indices
    being active. *)
Theorem ramp_filter_survives_input :
  let m := runRig rampWithInput rigBoot in
  ramp m = RampDone ∧
  servosActive (world m) = [Some 0; Some 2; Some 1; Some 3]%Z ∧
  settleServoFilter (states (world m) (rampState m)) = None ∧
  mainState m ≠ rampState m ∧
  is_Some (settleServoFilter (states (world m) (mainState m))) ∧
  map (λ r, skipped (liveFilter m) (heap (world m) r)) (all rigServos) =
    [false; false; false; false].
Proof.
  vm_compute. repeat split; [discriminate|eexists; reflexivity].
Qed.

End Evaluations.

(** * The remaining code: further properties *)

Section SettlerMore.
Context `{Ctl : Controller}.

Lemma settleLoop_all_skipped flt rs (h : Heap) log :
  (∀ r, r ∈ rs → skipped flt (h r) = true) → settleLoop flt rs h log = (h, log).
Proof.
  induction rs as [|r0 rs IH]; intros Hall; [done|].
  cbn [settleLoop]. rewrite (Hall r0) by left.
  apply IH. intros r Hr. apply Hall. by right.
Qed.

Lemma insert_settled_index (h : Heap) r0 r :
  index (<[r0 := settleServo (h r0)]> h r) = index (h r).
Proof.
  destruct (decide (r0 = r)) as [->|Hne].
  - by rewrite heap_insert_eq, settleServo_index.
  - by rewrite heap_insert_ne.
Qed.

(** The writes of a pass: at most one per listed servo, each with [on = 0]
    and on the channel of a listed servo. *)
Lemma settleLoop_writes flt rs (h : Heap) :
  length (snd (settleLoop flt rs h [])) ≤ length rs ∧
  ∀ wr, wr ∈ snd (settleLoop flt rs h []) →
        pulse_on wr = 0%Z ∧ ∃ r, r ∈ rs ∧ channel wr = index (h r).
Proof.
  revert h. induction rs as [|r0 rs IH]; intros h; cbn [settleLoop].
  { split; [done|]. intros wr Hwr. by apply elem_of_nil in Hwr. }
  destruct (skipped flt (h r0)).
  - destruct (IH h) as [Hlen Hwr]. split; [cbn [length]; by apply le_S|].
    intros wr Hin. destruct (Hwr wr Hin) as (Hon & r & Hr & Hch).
    split; [done|]. exists r. split; [by right|done].
  - rewrite settleLoop_log.
    destruct (IH (<[r0 := settleServo (h r0)]> h)) as [Hlen Hwr]. split.
    + rewrite length_app. cbn [app length Nat.add]. by apply le_n_S.
    + intros wr Hin. apply elem_of_app in Hin as [Hin|Hin].
      * apply list_elem_of_singleton in Hin as ->. cbn [pulse_on channel].
        split; [done|]. exists r0. split; [left|apply settleServo_index].
      * destruct (Hwr wr Hin) as (Hon & r & Hr & Hch). split; [done|].
        exists r. split; [by right|]. by rewrite Hch, insert_settled_index.
Qed.

(** X1. A settler pass is confined to the collection: a servo object that
    [servos.all()] does not yield is left exactly as it was, and the pass
    appends to the hardware log at most one write per servo of [all()], each
    with [on = 0] and on the channel of one of those servos; earlier writes
    stay in place. *)
Theorem settleServos_confined {I} (context : Context I) (w : World) :
  let st := states w (state context) in
  let w' := snd (settleServos context w) in
  (∀ r, r ∉ all (servos st) → heap w' r = heap w r) ∧
  ∃ writes, pwm w' = pwm w ++ writes ∧
            length writes ≤ length (all (servos st)) ∧
            ∀ wr, wr ∈ writes →
                  pulse_on wr = 0%Z ∧
                  ∃ r, r ∈ all (servos st) ∧ channel wr = index (heap w r).
Proof.
  intros st w'. unfold w', settleServos. cbn [snd with_heap_pwm heap pwm].
  fold st. split.
  - intros r Hr. by apply settleLoop_frame.
  - eexists. split; [apply settleLoop_log|]. apply settleLoop_writes.
Qed.

(** X2. When the filter rejects every servo of the collection -- as the
    startup filter does while no index is active -- a settler pass changes
    nothing at all: no servo, no hardware write, the world is the same. *)
Theorem settleServos_all_rejected {I} (context : Context I) (w : World) :
  let st := states w (state context) in
  (∀ r, r ∈ all (servos st) → skipped (filterOf w st) (heap w r) = true) →
  snd (settleServos context w) = w.
Proof.
  intros st Hall. unfold settleServos. cbn [snd]. fold st.
  rewrite (settleLoop_all_skipped _ _ _ _ Hall). by destruct w.
Qed.

End SettlerMore.

Section LeanMore.
Context `{Cal : Calibration}.

Lemma shouldLean_normalize (context : Context RawInput) :
  shouldLean (normalizeInput context) = leanHeld (input context).
Proof.
  unfold shouldLean, leanHeld, normalizeInput. cbn [input buttonsPressed].
  apply bool_decide_ext. apply elem_of_list_to_set.
Qed.

(** X5. What [lean] does to the servos after [normalizeInput] depends only
    on the vector of the right stick, on whether button 4 occurs among the
    raw buttons, and on the state: two samples that agree on these leave the
    same servo goals and the same [justLeaned], whatever their left stick,
    other buttons and elapsed time. *)
Theorem lean_reads_right_stick (c1 c2 : Context RawInput) (w : World) :
  state c1 = state c2 →
  vectorFromJoystick (raw_right (input c1)) =
    vectorFromJoystick (raw_right (input c2)) →
  leanHeld (input c1) = leanHeld (input c2) →
  heap (snd (lean (normalizeInput c1) w)) =
    heap (snd (lean (normalizeInput c2) w)) ∧
  justLeaned (snd (lean (normalizeInput c1) w)) =
    justLeaned (snd (lean (normalizeInput c2) w)).
Proof.
  intros Hst Hvec Hheld. rewrite !lean_flag, !shouldLean_normalize.
  split; [|done]. rewrite !lean_heap. unfold leanEffect.
  rewrite !shouldLean_normalize, Hheld.
  cbn [normalizeInput input state axes_right vectorizeJoystick x y].
  by rewrite Hst, Hvec.
Qed.

(** X7. [lean] is confined to the goals of the leg servos: on every servo it
    leaves index, controller, current and neutral as they were, it writes
    nothing to the hardware, and a servo outside [legs.left] and
    [legs.right] (button pressed), or outside [legs.all()] (button not
    pressed), is left exactly as it was. *)
Theorem lean_confined (context : Context Input) (w : World) (r : ref) :
  let lg := legs (servos (states w (state context))) in
  let w' := snd (lean context w) in
  same_but_goal (heap w' r) (heap w r) ∧
  pwm w' = pwm w ∧
  (shouldLean context = true →
   r ∉ legRefs (left lg) ++ legRefs (right lg) → heap w' r = heap w r) ∧
  (shouldLean context = false → r ∉ legs_all lg → heap w' r = heap w r).
Proof.
  intros lg w'. unfold w'. rewrite lean_heap.
  split; [apply leanEffect_but_goal|].
  split; [by destruct (leanEffect_rest context w)|].
  unfold leanEffect. fold lg. split.
  - intros -> Hr. apply not_elem_of_app in Hr as [Hl Hr].
    cbn [with_heap_flag heap]. by rewrite !leanSide_frame.
  - intros -> Hr. destruct (justLeaned w); [|done].
    cbn [with_heap_flag heap]. by rewrite resetLegs_frame.
Qed.

(** X8. Press, then release: when a call of [lean] with button 4 pressed is
    followed by a call with it released, on a state with the same legs, every
    servo of [legs.all()] ends with its goal at the neutral it had before the
    press. *)
Theorem lean_press_release (c1 c2 : Context Input) (w : World) (r : ref) :
  let w1 := snd (lean c1 w) in
  let w2 := snd (lean c2 w1) in
  shouldLean c1 = true → shouldLean c2 = false →
  legs (servos (states w1 (state c2))) = legs (servos (states w (state c1))) →
  r ∈ legs_all (legs (servos (states w (state c1)))) →
  goal (position (heap w2 r)) = neutral (position (heap w r)) ∧
  current (position (heap w2 r)) = current (position (heap w r)).
Proof.
  intros w1 w2 Hp Hrel Hlegs Hr.
  assert (justLeaned w1 = true) as Hflag by (unfold w1; by rewrite lean_flag).
  pose proof (leanEffect_but_goal c1 w r) as (_ & _ & Hc1 & Hn1).
  rewrite <- lean_heap in Hc1, Hn1. fold w1 in Hc1, Hn1.
  pose proof (leanEffect_but_goal c2 w1 r) as (_ & _ & Hc2 & _).
  rewrite <- lean_heap in Hc2. fold w2 in Hc2.
  split; [|congruence].
  unfold w2. rewrite lean_heap. unfold leanEffect.
  rewrite Hrel, Hflag, Hlegs. cbn [with_heap_flag heap].
  rewrite resetLegs_goal by done. done.
Qed.

End LeanMore.

Section OrchestratorMore.
Context `{Ges : Gestures}.

Lemma call_flag g context (w : World) :
  justLeaned (snd (call g context w)) = justLeaned w.
Proof. done. Qed.

(** Whatever [move] and [stand] do, and whether the step throws or not, the
    flag after a step is the level of button 4 in its sample. *)
Lemma step_flag context (w : World) :
  justLeaned (snd (step context w)) = leanHeld (input context).
Proof.
  rewrite <- shouldLean_normalize. unfold step. cbn [assert].
  destruct (lean (normalizeInput context) w) as [c2 w2] eqn:Hl.
  assert (justLeaned w2 = shouldLean (normalizeInput context)) as <-.
  { change w2 with (snd (c2, w2)). rewrite <- Hl. apply lean_flag. }
  destruct (call move c2 w2) as [r3 w3] eqn:Hm.
  assert (justLeaned w3 = justLeaned w2) as <-.
  { change w3 with (snd (r3, w3)). rewrite <- Hm. apply call_flag. }
  destruct r3 as [c3|]; cbn [assert]; [|done].
  destruct (call stand c3 w3) as [r4 w4] eqn:Hs.
  assert (justLeaned w4 = justLeaned w3) as <-.
  { change w4 with (snd (r4, w4)). rewrite <- Hs. apply call_flag. }
  by destruct r4.
Qed.

Lemma rampResume_flag r (m : Machine) :
  justLeaned (world (rampResume r m)) = justLeaned (world m).
Proof.
  unfold rampResume.
  assert (∀ rem later,
    justLeaned (world (rampWhile r rem later m)) = justLeaned (world m)) as Hw.
  { by intros [|u rem] later. }
  destruct (ramp m) as [|rem later|[|rem later]|]; try done; apply Hw.
Qed.

Lemma handle_flag ev (m : Machine) :
  justLeaned (world (handle ev m)) =
  match ev with
  | EvInput i _ => leanHeld i
  | _ => justLeaned (world m)
  end.
Proof.
  destruct ev as [i dt|dt|r]; cbn [handle].
  - unfold assign. destruct (fst (step _ _)); cbn [world]; by rewrite step_flag.
  - done.
  - apply rampResume_flag.
Qed.

(** X9. At any point of a run of the orchestrator the [justLeaned] flag is
    the level of button 4 in the last input sample handled so far (the
    initial flag when there was none): ticks and sequencer timers never
    change it, and neither do [move] and [stand], not even when the step
    throws. *)
Theorem flag_tracks_last_input (evs : list Event) (m : Machine) :
  justLeaned (world (run evs m)) = lastLevel evs (justLeaned (world m)).
Proof.
  unfold run, lastLevel. revert m.
  induction evs as [|ev evs IH]; intros m; [done|].
  cbn [fold_left]. rewrite IH, handle_flag. by destruct ev.
Qed.

Lemma handle_tick dt (m : Machine) :
  handle (EvTick dt) m =
  mkMachine (snd (settleServos (tickContext (mainState m) dt) (world m)))
            (mainState m) (rampState m) (ramp m).
Proof. done. Qed.

Lemma staged_snoc finished cur a1 a2 :
  staged finished a1 → a2 ≡ₚ cur → staged (finished ++ [cur]) (a1 ++ a2).
Proof.
  intros Hst Hperm. induction Hst as [|s ss a b Ha Hb IH].
  - cbn [app]. rewrite <- (app_nil_r a2). constructor; [done|constructor].
  - rewrite <- app_assoc. cbn [app]. by constructor.
Qed.

Lemma rampWhile_staged r rem later (m : Machine) sets finished cur a1 a2 :
  validDraw r → NoDup rem →
  (∀ v, v ∈ rem → v ∉ servosActive (world m)) →
  sets = finished ++ cur :: later →
  servosActive (world m) = a1 ++ a2 →
  staged finished a1 → a2 ++ rem ≡ₚ cur →
  stagedInv sets (rampWhile r rem later m).
Proof.
  intros Hr Hnd Hfresh Hsets Hact Hst Hperm. destruct rem as [|u rem].
  { unfold stagedInv. cbn [rampWhile ramp world].
    exists (finished ++ [cur]). split; [by rewrite <- app_assoc|].
    rewrite Hact. apply staged_snoc; [done|]. by rewrite app_nil_r in Hperm. }
  set (rem0 := u :: rem) in *.
  assert (rampWhile r rem0 later m =
          mkMachine (with_active (world m)
                       (set_add (pickServo r rem0) (servosActive (world m))))
            (mainState m) (rampState m)
            (RampWhile (set_delete (pickServo r rem0) rem0) later)) as -> by done.
  set (v := pickServo r rem0).
  assert (v ∈ rem0) as Hv by (by apply pickServo_elem).
  unfold stagedInv. cbn [ramp world with_active servosActive].
  rewrite (set_add_fresh _ _ (Hfresh v Hv)).
  exists finished, cur, a1, (a2 ++ [v]). split; [done|].
  split; [by rewrite Hact, app_assoc|]. split; [done|].
  rewrite <- Hperm, <- app_assoc. cbn [app].
  by rewrite <- (set_delete_perm v rem0 Hnd Hv).
Qed.

Lemma rampResume_staged r (m : Machine) sets L :
  validDraw r → rampInv L m → stagedInv sets m →
  stagedInv sets (rampResume r m).
Proof.
  intros Hr (Hidle & Hnd & _ & _) Hst. unfold rampResume.
  unfold stagedInv in Hst.
  destruct (ramp m) as [|rem later|[|rem later]|] eqn:Hramp; try done.
  - destruct Hst as (finished & cur & a1 & a2 & Hsets & Hact & Hfin & Hperm).
    cbn [pending] in Hnd.
    apply list.NoDup_app in Hnd as (_ & Hdisj & Hrest).
    apply list.NoDup_app in Hrest as (Hrem & _ & _).
    eapply rampWhile_staged; try done.
    intros v Hv Hin. apply (Hdisj v Hin). apply elem_of_app. by left.
  - destruct Hst as (finished & Hsets & Hfin).
    unfold stagedInv. cbn [ramp world with_filter servosActive].
    by rewrite Hsets, app_nil_r.
  - destruct Hst as (finished & Hsets & Hfin).
    cbn [pending concat] in Hnd.
    apply list.NoDup_app in Hnd as (_ & Hdisj & Hrest).
    apply list.NoDup_app in Hrest as (Hrem & _ & _).
    eapply (rampWhile_staged r rem later m sets finished rem
              (servosActive (world m)) []); try done.
    + intros v Hv Hin. apply (Hdisj v Hin). apply elem_of_app. by left.
    + by rewrite app_nil_r.
  - unfold stagedInv. by rewrite Hramp.
Qed.

(** Ticks and sequencer timers, in any order: enough timers with valid draws
    bring the sequencer to its end, through the sets in their order. *)
Lemma ramp_ticks_run evs (m : Machine) L sets :
  rampInv L m → stagedInv sets m →
  Forall noInput evs → Forall validDraw (rampDraws evs) →
  rampMeasure (ramp m) ≤ length (rampDraws evs) →
  let m' := run evs m in
  rampInv L m' ∧ stagedInv sets m' ∧ ramp m' = RampDone ∧
  mainState m' = mainState m ∧ rampState m' = rampState m.
Proof.
  revert m. induction evs as [|ev evs IH]; intros m Hinv Hst Hno Hrs Hlen.
  { cbn. do 2 (split; [done|]). split; [|done]. destruct Hinv as [Hidle _].
    destruct (ramp m); cbn in Hlen; (done || lia). }
  apply list.Forall_cons in Hno as [Hev Hno].
  cbn [run fold_left]. fold (run evs (handle ev m)).
  destruct ev as [i dt|dt|r]; [done| |].
  - rewrite handle_tick. cbn [rampDraws flat_map app] in Hrs, Hlen.
    fold (rampDraws evs) in Hrs, Hlen.
    specialize (IH (mkMachine
      (snd (settleServos (tickContext (mainState m) dt) (world m)))
      (mainState m) (rampState m) (ramp m))).
    cbn [mainState rampState ramp] in IH. by apply IH.
  - cbn [rampDraws flat_map app] in Hrs, Hlen. fold (rampDraws evs) in Hrs, Hlen.
    apply list.Forall_cons in Hrs as [Hr Hrs]. cbn [handle].
    destruct (rampResume_vars r m) as [<- <-].
    assert (ramp m = RampDone ∨ ramp m ≠ RampDone) as [Hd|Hnd]
      by (destruct (ramp m); auto).
    + rewrite (rampResume_done r m Hd). apply IH; [done..|]. rewrite Hd. cbn. lia.
    + destruct (rampResume_step r m L Hr Hinv Hnd) as [Hinv' Hlt].
      apply IH; [done|by eapply rampResume_staged|done..|].
      cbn [length] in Hlen. lia.
Qed.

Lemma main_started (w : World) (st : loc) (r0 : Q) :
  let evenServos := set_of (indices (heap w) (even (servos (states w st)))) in
  let oddServos := set_of (indices (heap w) (odd (servos (states w st)))) in
  (∀ v, v ∈ evenServos → v ∉ oddServos) → validDraw r0 →
  rampInv (evenServos ++ oddServos) (main r0 w st) ∧
  stagedInv [evenServos; oddServos] (main r0 w st) ∧
  rampMeasure (ramp (main r0 w st)) < length evenServos + length oddServos + 3 ∧
  mainState (main r0 w st) = st ∧ rampState (main r0 w st) = st.
Proof.
  intros evenServos oddServos Hdisj Hr0.
  set (m0 := mkMachine (with_filter (with_active w []) st (Some startupFilter))
               st st RampIdle).
  assert (main r0 w st = rampWhile r0 evenServos [oddServos] m0) as Hmain by done.
  rewrite Hmain.
  destruct (rampWhile_step r0 evenServos [oddServos] m0 (evenServos ++ oddServos))
    as [Hinv Hlt]; [done| | |].
  { cbn [m0 world with_filter with_active servosActive app concat].
    rewrite app_nil_r. apply list.NoDup_app.
    repeat split; [apply set_of_NoDup|done|apply set_of_NoDup]. }
  { cbn [m0 world with_filter with_active servosActive app concat].
    by rewrite app_nil_r. }
  split; [done|]. split.
  { apply (rampWhile_staged r0 evenServos [oddServos] m0 _ [] evenServos [] []);
      try done; [apply set_of_NoDup| |constructor].
    intros v _ Hin. by apply elem_of_nil in Hin. }
  split; [cbn [rampMeasure foldr] in Hlt; lia|]. apply rampWhile_vars.
Qed.

(** X10. The startup ramp with ticks in between and no input sample. With
    draws in [[0, 1)], no index both in the even and in the odd set, and the
    timers the sequencer schedules -- one per index and one per pause, as
    many as both sets hold plus two --, the sequencer finishes; the active Set then lists, in
    insertion order, first the even indices and then the odd ones, each
    once; [main] still holds the state object the sequencer was given, and
    that object has no filter any more. *)
Theorem ramp_shoulders_first (w : World) (st : loc) (r0 : Q) (evs : list Event) :
  let evenServos := set_of (indices (heap w) (even (servos (states w st)))) in
  let oddServos := set_of (indices (heap w) (odd (servos (states w st)))) in
  let m := run evs (main r0 w st) in
  (∀ v, v ∈ evenServos → v ∉ oddServos) →
  validDraw r0 → Forall noInput evs → Forall validDraw (rampDraws evs) →
  length evenServos + length oddServos + 2 ≤ length (rampDraws evs) →
  ramp m = RampDone ∧
  (∃ a b, servosActive (world m) = a ++ b ∧ a ≡ₚ evenServos ∧ b ≡ₚ oddServos) ∧
  mainState m = st ∧
  settleServoFilter (states (world m) (mainState m)) = None.
Proof.
  intros evenServos oddServos m Hdisj Hr0 Hno Hrs Hlen.
  destruct (main_started w st r0 Hdisj Hr0) as (Hinv & Hst & Hlt & Hm & Hrst).
  fold evenServos oddServos in Hinv, Hst, Hlt.
  destruct (ramp_ticks_run evs (main r0 w st) _ _ Hinv Hst Hno Hrs)
    as (Hinv' & Hst' & Hdone & Hmain & Hramp); [lia|].
  fold m in Hinv', Hst', Hdone, Hmain, Hramp.
  split; [done|]. split.
  - unfold stagedInv in Hst'. rewrite Hdone in Hst'.
    inversion Hst' as [|s ss a b' Ha Hb']; subst.
    inversion Hb' as [|s ss b c Hb Hc]; subst.
    inversion Hc; subst. exists a, b. by rewrite app_nil_r.
  - split; [congruence|]. destruct Hinv' as (_ & _ & _ & Hflt).
    specialize (Hflt Hdone). rewrite Hmain, Hm. by rewrite Hramp, Hrst in Hflt.
Qed.

Lemma rampResume_filterInv r (m : Machine) st :
  filterInv st m → filterInv st (rampResume r m).
Proof.
  intros (Hm & Hr & Hidle & Hflt). unfold rampResume.
  assert (∀ rem later, ramp m ≠ RampDone →
            filterInv st (rampWhile r rem later m)) as Hw.
  { intros rem later Hnd. unfold filterInv.
    assert (settleServoFilter (states (world m) st) = Some startupFilter) as Hs.
    { rewrite Hflt. by destruct (ramp m). }
    by destruct rem as [|u rem]. }
  destruct (ramp m) as [|rem later|[|rem later]|] eqn:Hramp; try done.
  - by apply Hw.
  - unfold filterInv. cbn [mainState rampState ramp world with_filter states].
    rewrite Hr. by rewrite fn_lookup_insert.
  - by apply Hw.
  - unfold filterInv. by rewrite Hramp.
Qed.

(** X11. With ticks and sequencer timers only, whatever the draws, [main]
    keeps holding the state object the sequencer was given, and that object
    carries the startup filter at every point before the sequencer is done,
    and no filter once it is done. *)
Theorem ramp_filter_until_done (w : World) (st : loc) (r0 : Q) (evs : list Event) :
  let m := run evs (main r0 w st) in
  Forall noInput evs →
  mainState m = st ∧
  settleServoFilter (states (world m) (mainState m)) =
    match ramp m with
    | RampDone => None
    | _ => Some startupFilter
    end.
Proof.
  intros m Hno.
  assert (filterInv st (main r0 w st)) as Hinit.
  { unfold main, setStartupSettlerFilter. cbn [world states].
    set (evenServos := set_of _). unfold filterInv.
    assert (states (with_filter (with_active w []) st (Some startupFilter)) st
            = mkState (servos (states w st)) (leaned (states w st))
                      (Some startupFilter)) as Hs.
    { unfold with_filter. cbn [states]. by rewrite fn_lookup_insert. }
    destruct evenServos as [|u rem]; cbn [rampWhile mainState rampState ramp world
      with_active states]; by rewrite Hs. }
  assert (filterInv st m) as (Hm & _ & _ & Hflt); [|by rewrite Hm].
  unfold m, run. revert Hinit. generalize (main r0 w st). clear m.
  induction evs as [|ev evs IH]; intros m Hinv; [done|].
  apply list.Forall_cons in Hno as [Hev Hno]. cbn [fold_left].
  apply IH; [done|]. destruct ev as [i dt|dt|r]; [done| |].
  - by rewrite handle_tick.
  - by apply rampResume_filterInv.
Qed.

(** X12. One iteration of the sequencer's [while] loop with a draw in
    [[0, 1)], on remaining indices that are not active yet: it picks an index
    of the remaining set (never [undefined]), appends it to the active Set
    and removes exactly it from the remaining set, which gets one shorter. *)
Theorem ramp_iteration_moves_one (r : Q) (servosRemaining : IndexSet)
    (later : list IndexSet) (m : Machine) :
  let m' := rampWhile r servosRemaining later m in
  validDraw r → servosRemaining ≠ [] → NoDup servosRemaining →
  (∀ v, v ∈ servosRemaining → v ∉ servosActive (world m)) →
  ∃ v, v ∈ servosRemaining ∧
       servosActive (world m') = (servosActive (world m) ++ [v]) ∧
       ramp m' = RampWhile (set_delete v servosRemaining) later ∧
       (v ∉ set_delete v servosRemaining) ∧
       (servosRemaining ≡ₚ v :: set_delete v servosRemaining).
Proof.
  intros m' Hr Hne Hnd Hfresh. exists (pickServo r servosRemaining).
  assert (pickServo r servosRemaining ∈ servosRemaining) as Hv
    by (by apply pickServo_elem).
  split; [done|]. unfold m'. destruct servosRemaining as [|u rem]; [done|].
  cbn [rampWhile world with_active servosActive ramp].
  rewrite (set_add_fresh _ _ (Hfresh _ Hv)).
  split; [done|]. split; [done|]. split; [|by apply set_delete_perm].
  unfold set_delete. intros Hin. apply list_elem_of_filter in Hin as [Hneq _].
  by apply Hneq.
Qed.

End OrchestratorMore.

Section FilteredTicks.
Context `{Ges : Gestures}.

(** Under a filter that looks at the index only, every write of a pass goes
    to the channel of a listed servo that the filter admits. *)
Lemma settleLoop_writes_admitted (f : Servo → bool) rs (h : Heap) :
  (∀ s1 s2, index s1 = index s2 → f s1 = f s2) →
  ∀ wr, wr ∈ snd (settleLoop (Some f) rs h []) →
        ∃ r, r ∈ rs ∧ channel wr = index (h r) ∧ f (h r) = true.
Proof.
  intros Hidx. revert h.
  induction rs as [|r0 rs IH]; intros h wr Hwr; cbn [settleLoop] in Hwr.
  { by apply elem_of_nil in Hwr. }
  destruct (skipped (Some f) (h r0)) eqn:Hsk.
  - destruct (IH h wr Hwr) as (r & Hr & Hch & Hf).
    exists r. split; [by right|done].
  - cbn [skipped] in Hsk. apply negb_false_iff in Hsk.
    rewrite settleLoop_log in Hwr. apply elem_of_app in Hwr as [Hwr|Hwr].
    + apply list_elem_of_singleton in Hwr as ->. cbn [channel].
      exists r0. split; [left|]. split; [apply settleServo_index|done].
    + destruct (IH _ wr Hwr) as (r & Hr & Hch & Hf).
      exists r. split; [by right|]. rewrite insert_settled_index in Hch.
      split; [done|]. rewrite <- Hf. apply Hidx.
      by rewrite insert_settled_index.
Qed.

(** X13. While the startup filter is installed, a settler pass engages
    activated servos only: a servo whose index is not in the active Set is
    left exactly as it was, and every hardware write of the pass goes to a
    channel whose index is in the active Set. *)
Theorem ramp_tick_only_active {I} (context : Context I) (w : World) :
  let w' := snd (settleServos context w) in
  settleServoFilter (states w (state context)) = Some startupFilter →
  (∀ r, set_has (Some (index (heap w r))) (servosActive w) = false →
        heap w' r = heap w r) ∧
  ∃ writes, pwm w' = pwm w ++ writes ∧
            ∀ wr, wr ∈ writes →
                  set_has (Some (channel wr)) (servosActive w) = true.
Proof.
  intros w' Hflt. unfold w', settleServos. cbn [snd with_heap_pwm heap pwm].
  unfold filterOf. rewrite Hflt. cbn [fmap option_fmap option_map]. split.
  - intros r Hr. apply settleLoop_rejected. cbn [skipped].
    unfold startupFilter. by rewrite Hr.
  - eexists. split; [apply settleLoop_log|]. intros wr Hwr.
    apply settleLoop_writes_admitted in Hwr as (r & _ & -> & Hf); [done|].
    intros s1 s2 Hi. unfold startupFilter. by rewrite Hi.
Qed.

Lemma rem2_even (z : Z) : (Z.rem z 2 =? 0)%Z = Z.even z.
Proof.
  destruct (Z.even z) eqn:He.
  - apply Z.eqb_eq. apply Z.rem_divide; [done|].
    apply Z.even_spec in He as [m ->]. exists m. lia.
  - apply Z.eqb_neq. intros Hrem. apply Z.rem_divide in Hrem as [m ->]; [|done].
    rewrite Z.mul_comm, Z.even_mul in He. done.
Qed.

(** X14. The earlier orchestrator, before its timeout: a tick right after
    [main] has installed [index % 2 === 0] leaves every servo with an odd
    index (negative ones too) exactly as it was, and writes to even channels
    only. *)
Theorem legacy_tick_even_only (w : World) (st : loc) (dt : num) :
  let w' := world (handle (EvTick dt) (Legacy.legacyBoot w st)) in
  (∀ r, Z.odd (index (heap w r)) = true → heap w' r = heap w r) ∧
  ∃ writes, pwm w' = pwm w ++ writes ∧
            ∀ wr, wr ∈ writes → Z.even (channel wr) = true.
Proof.
  intros w'. unfold w'. rewrite handle_tick.
  unfold Legacy.legacyBoot, settleServos.
  cbn [world mainState snd with_heap_pwm heap pwm tickContext state].
  unfold filterOf, with_filter. cbn [states servosActive heap pwm].
  rewrite fn_lookup_insert.
  cbn [settleServoFilter servos fmap option_fmap option_map]. split.
  - intros r Hr. apply settleLoop_rejected. cbn [skipped].
    unfold Legacy.evenFilter. rewrite rem2_even, <- Z.negb_odd, Hr. done.
  - eexists. split; [apply settleLoop_log|]. intros wr Hwr.
    apply settleLoop_writes_admitted in Hwr as (r & _ & -> & Hf).
    + unfold Legacy.evenFilter in Hf. by rewrite rem2_even in Hf.
    + intros s1 s2 Hi. unfold Legacy.evenFilter. by rewrite Hi.
Qed.

End FilteredTicks.

(** * The further properties on the concrete rigs *)

Section EvaluationsMore.
Import Rig RigMore.

(** X2 on the rig: with the startup filter set and nothing active, a tick
    leaves the world as it is. *)
Lemma settleServos_all_rejected_witness :
  snd (settleServos tickCtx idleWorld) = idleWorld.
Proof.
  apply (settleServos_all_rejected tickCtx idleWorld).
  intros r _. reflexivity.
Defined.

(** X5 on the rig: the two samples differ in all that [lean] ignores and
    leave the same flag. *)
Lemma lean_reads_right_stick_witness :
  leanHeld (input sampleA) = leanHeld (input sampleB) ∧
  justLeaned (snd (lean (normalizeInput sampleA) (rigWorld None))) =
  justLeaned (snd (lean (normalizeInput sampleB) (rigWorld None))).
Proof.
  assert (leanHeld (input sampleA) = leanHeld (input sampleB)) as Hheld
    by (vm_compute; reflexivity).
  split; [exact Hheld|].
  exact (proj2 (lean_reads_right_stick sampleA sampleB (rigWorld None)
                  eq_refl eq_refl Hheld)).
Defined.

(** X8 on the rig: after press and release servo 1 is back at its neutral. *)
Lemma lean_press_release_witness :
  shouldLean (leanContext [4%Z] 10 20) = true ∧
  shouldLean (leanContext [] 10 20) = false ∧
  goal (position (heap (snd (lean (leanContext [] 10 20)
                               (snd (lean (leanContext [4%Z] 10 20)
                                       (rigWorld None))))) 1)) = 300%Z.
Proof.
  assert (shouldLean (leanContext [4%Z] 10 20) = true) as Hp
    by (vm_compute; reflexivity).
  assert (shouldLean (leanContext [] 10 20) = false) as Hr
    by (vm_compute; reflexivity).
  split; [exact Hp|]. split; [exact Hr|].
  refine (proj1 (lean_press_release (leanContext [4%Z] 10 20)
                   (leanContext [] 10 20) (rigWorld None) 1 Hp Hr eq_refl _)).
  right. left.
Defined.

(** X13 on the rig, nothing active yet: servo 0 is left alone. *)
Lemma ramp_tick_only_active_witness :
  settleServoFilter (states idleWorld (state tickCtx)) = Some startupFilter ∧
  heap (snd (settleServos tickCtx idleWorld)) 0 = heap idleWorld 0.
Proof.
  split; [reflexivity|].
  exact (proj1 (@ramp_tick_only_active ZArithmetic halfController unit tickCtx
                  idleWorld eq_refl) 0 eq_refl).
Defined.

Lemma rampWithTicks_noInput : Forall noInput rampWithTicks.
Proof. repeat (constructor; [exact I|]). constructor. Defined.

Lemma rampWithTicks_valid : Forall validDraw (rampDraws rampWithTicks).
Proof.
  repeat (constructor; [split; [discriminate|reflexivity]|]). constructor.
Defined.

(** X10 on the rig, a tick after every timer: the sequencer finishes. *)
Lemma ramp_shoulders_first_witness :
  validDraw (1 # 3) ∧
  ramp (runRig rampWithTicks thirdMain) = RampDone.
Proof.
  assert (validDraw (1 # 3)) as Hr0 by (split; [discriminate|reflexivity]).
  split; [exact Hr0|].
  refine (proj1 (@ramp_shoulders_first ZArithmetic halfController
                   offsetCalibration passGestures (rigWorld None) 0 (1 # 3)
                   rampWithTicks _ Hr0 rampWithTicks_noInput
                   rampWithTicks_valid _)).
  - intros v Hv Hin.
    change (v ∈ [Some 0%Z; Some 2%Z]) in Hv.
    change (v ∈ [Some 1%Z; Some 3%Z]) in Hin.
    apply elem_of_cons in Hin as [->|Hin];
      [|apply elem_of_cons in Hin as [->|Hin]; [|by apply elem_of_nil in Hin]];
      (apply elem_of_cons in Hv as [Hv|Hv]; [discriminate|];
       apply elem_of_cons in Hv as [Hv|Hv]; [discriminate|];
       by apply elem_of_nil in Hv).
  - vm_compute. apply le_n.
Defined.

(** X11 on the rig, a tick after every timer: [main] keeps its state. *)
Lemma ramp_filter_until_done_witness :
  Forall noInput rampWithTicks ∧
  mainState (runRig rampWithTicks thirdMain) = 0.
Proof.
  split; [exact rampWithTicks_noInput|].
  exact (proj1 (@ramp_filter_until_done ZArithmetic halfController
                  offsetCalibration passGestures (rigWorld None) 0 (1 # 3)
                  rampWithTicks rampWithTicks_noInput)).
Defined.

(** X12 on the rig: with [{0, 2}] remaining and draw 1/2 one index moves. *)
Lemma ramp_iteration_moves_one_witness :
  validDraw (1 # 2) ∧
  ∃ v, v ∈ [Some 0%Z; Some 2%Z] ∧
       servosActive (world (rampWhile (1 # 2) [Some 0%Z; Some 2%Z] [] freshMachine))
         = (servosActive (world freshMachine) ++ [v]) ∧
       ramp (rampWhile (1 # 2) [Some 0%Z; Some 2%Z] [] freshMachine)
         = RampWhile (set_delete v [Some 0%Z; Some 2%Z]) [] ∧
       (v ∉ set_delete v [Some 0%Z; Some 2%Z]) ∧
       ([Some 0%Z; Some 2%Z] ≡ₚ v :: set_delete v [Some 0%Z; Some 2%Z]).
Proof.
  assert (validDraw (1 # 2)) as Hr by (split; [discriminate|reflexivity]).
  split; [exact Hr|].
  refine (ramp_iteration_moves_one (1 # 2) [Some 0%Z; Some 2%Z] [] freshMachine
            Hr _ _ _).
  - discriminate.
  - apply (bool_decide_unpack (NoDup _)). vm_compute. exact I.
  - intros v _ Hin. exact (proj1 (elem_of_nil v) Hin).
Defined.

End EvaluationsMore.
